(** * check-cask-updates: a shallow embedding and its properties

    The script [Scripts/check-cask-updates.py] inventories the installed
    macOS applications and reports which of them have a newer Homebrew
    cask.  This development embeds its functions in Rocq and proves the
    properties of the version comparator, of the catalog indexer and of
    the matcher.

    Conventions of the embedding.
    - A Python value is a [pyval]: the values [json.loads] produces
      ([None], booleans, integers, strings, lists, objects with string
      keys).  Numbers with a fraction or an exponent are outside the
      model.
    - A Python [str] is a [string]; a character is a code point below
      256.
    - A Python exception is an [exn]; a computation that can raise is a
      [result].  Every [exn] is a subclass of [Exception]; the
      interpreter's own [BaseException]s (keyboard interrupt, exit) are
      outside the model.
    - The outcome of a child process is an input of the model
      ([proc]), and so is the order in which the pool's tasks complete. *)

From Stdlib Require Import ZArith List String Ascii Bool Lia.
From stdpp Require Import gmap strings list fin_maps.

Set Warnings "-register-all".

Local Open Scope string_scope.
Local Open Scope Z_scope.

(** ** Exceptions and results *)

Inductive exn : Type :=
  | IndexError
  | KeyError
  | TypeError
  | ValueError
  | AttributeError
  | TimeoutExpired
  | JSONDecodeError
  | FileNotFoundError
  | OtherError (name : string).

Inductive result (A : Type) : Type :=
  | Ok (a : A)
  | Raise (e : exn).

Arguments Ok {A} a.
Arguments Raise {A} e.

Definition bind {A B : Type} (m : result A) (k : A -> result B) : result B :=
  match m with
  | Ok a => k a
  | Raise e => Raise e
  end.

Notation "'let*' x ':=' m 'in' k" := (bind m (fun x => k))
  (at level 10, x name, m at level 100, k at level 200).

(** [try: body except e: handler e] *)
Definition try_except {A : Type} (body : result A) (handler : exn -> result A)
  : result A :=
  match body with
  | Ok a => Ok a
  | Raise e => handler e
  end.

Definition raises {A : Type} (r : result A) : bool :=
  match r with
  | Ok _ => false
  | Raise _ => true
  end.

(** ** Python values *)

Inductive pyval : Type :=
  | PNone
  | PBool (b : bool)
  | PInt (n : Z)
  | PStr (s : string)
  | PList (l : list pyval)
  | PDict (d : list (string * pyval)).

(** [bool(v)], the test of [if v:] and [not v]. *)
Definition truthy (v : pyval) : bool :=
  match v with
  | PNone => false
  | PBool b => b
  | PInt n => negb (n =? 0)
  | PStr s => negb (s =? "")%string
  | PList l => match l with [] => false | _ => true end
  | PDict d => match d with [] => false | _ => true end
  end.

(** A dictionary is kept in insertion order; a key is looked up at its
    first binding (the keys of a decoded object are distinct). *)
Fixpoint dict_lookup (k : string) (d : list (string * pyval)) : option pyval :=
  match d with
  | [] => None
  | (k', v) :: d' => if (k =? k')%string then Some v else dict_lookup k d'
  end.

(** [v.get(k, default)] *)
Definition py_get (v : pyval) (k : string) (default : pyval) : result pyval :=
  match v with
  | PDict d =>
      match dict_lookup k d with
      | Some x => Ok x
      | None => Ok default
      end
  | _ => Raise AttributeError
  end.

(** The characters of a string, each as a string of length one. *)
Fixpoint chars (s : string) : list string :=
  match s with
  | EmptyString => []
  | String c s' => String c EmptyString :: chars s'
  end.

(** The items a [for] loop or [list.extend] draws from [v]. *)
Definition py_iter (v : pyval) : result (list pyval) :=
  match v with
  | PList l => Ok l
  | PStr s => Ok (map PStr (chars s))
  | PDict d => Ok (map (fun kv => PStr (fst kv)) d)
  | PNone | PBool _ | PInt _ => Raise TypeError
  end.

(** ** Strings *)

(** [str.isspace] on one character below 256. *)
Definition isspace (c : ascii) : bool :=
  let n := N_of_ascii c in
  ((9 <=? n) && (n <=? 13) || (28 <=? n) && (n <=? 32)
   || (n =? 133) || (n =? 160))%N.

Definition space : ascii := " "%char.

Fixpoint has_char (c : ascii) (s : string) : bool :=
  match s with
  | EmptyString => false
  | String c' s' => Ascii.eqb c c' || has_char c s'
  end.

(** [s.split()]: the maximal runs of characters that are not white
    space.  [w] is the run being read. *)
Fixpoint split_ws_from (w : string) (s : string) : list string :=
  match s with
  | EmptyString => if (w =? "")%string then [] else [w]
  | String c s' =>
      if isspace c
      then (if (w =? "")%string then split_ws_from "" s'
            else w :: split_ws_from "" s')
      else split_ws_from (w ++ String c "") s'
  end.

Definition split_ws (s : string) : list string := split_ws_from "" s.

(** [s.split(sep)] for a separator of one character. *)
Fixpoint split_on (sep : ascii) (s : string) : list string :=
  match s with
  | EmptyString => [""]
  | String c s' =>
      if Ascii.eqb c sep then "" :: split_on sep s'
      else match split_on sep s' with
           | w :: ws => String c w :: ws
           | [] => [String c ""]
           end
  end.

Fixpoint lstrip (s : string) : string :=
  match s with
  | EmptyString => EmptyString
  | String c s' => if isspace c then lstrip s' else s
  end.

Definition string_rev (s : string) : string :=
  string_of_list_ascii (rev (list_ascii_of_string s)).

(** [s.strip()] *)
Definition py_strip (s : string) : string :=
  string_rev (lstrip (string_rev (lstrip s))).

(** *** [int(s)] for a string

    The interpreter turns the two white-space characters above 127
    into a blank, skips the blanks of C ([\t\n\v\f\r] and the space) at
    both ends, reads an optional sign and then decimal digits, where a
    single underscore may separate two digits.  More than
    [int_max_str_digits] digits are refused (the default of the
    interpreter from version 3.11 on).  Anything else raises
    [ValueError]. *)

Definition int_max_str_digits : nat := 4300.

Definition is_c_space (c : ascii) : bool :=
  let n := N_of_ascii c in
  ((9 <=? n) && (n <=? 13) || (n =? 32) || (n =? 133) || (n =? 160))%N.

Definition is_digit (c : ascii) : bool :=
  let n := N_of_ascii c in ((48 <=? n) && (n <=? 57))%N.

Definition digit_value (c : ascii) : Z := Z.of_N (N_of_ascii c) - 48.

Fixpoint skip_c_space (s : string) : string :=
  match s with
  | EmptyString => EmptyString
  | String c s' => if is_c_space c then skip_c_space s' else s
  end.

(** The digits of the literal: [us] tells that an underscore may not
    come next (at the start, and after an underscore).  Returns the
    value, the number of digits and the rest of the string. *)
Fixpoint scan_digits (us : bool) (acc : Z) (count : nat) (s : string)
  : option (Z * nat * string) :=
  match s with
  | EmptyString => if us then None else Some (acc, count, EmptyString)
  | String c s' =>
      if is_digit c
      then scan_digits false (10 * acc + digit_value c) (S count) s'
      else if Ascii.eqb c "_"%char
           then (if us then None else scan_digits true acc count s')
           else (if us then None else Some (acc, count, s))
  end.

Definition py_int (s : string) : result Z :=
  let s1 := skip_c_space s in
  let '(sign, s2) :=
    match s1 with
    | String "+"%char r => (1, r)
    | String "-"%char r => (-1, r)
    | _ => (1, s1)
    end in
  match scan_digits true 0 0%nat s2 with
  | Some (n, count, rest) =>
      match skip_c_space rest with
      | EmptyString =>
          if (count <=? int_max_str_digits)%nat then Ok (sign * n)
          else Raise ValueError
      | _ => Raise ValueError
      end
  | None => Raise ValueError
  end.

(** ** The version comparator *)

(** A component of a parsed version: an [int] or a [str]. *)
Inductive part : Type :=
  | Num (n : Z)
  | Txt (s : string).

(** [x == y] on components: an [int] never equals a [str]. *)
Definition part_eqb (x y : part) : bool :=
  match x, y with
  | Num a, Num b => a =? b
  | Txt a, Txt b => (a =? b)%string
  | _, _ => false
  end.

(** [x < y] on components: integers by value, strings by code points;
    between an [int] and a [str] the interpreter raises [TypeError]. *)
Definition part_lt (x y : part) : result bool :=
  match x, y with
  | Num a, Num b => Ok (a <? b)
  | Txt a, Txt b => Ok (String.ltb a b)
  | _, _ => Raise TypeError
  end.

(** [v < w] on lists: the first pair of unequal items decides; without
    one, the shorter list is the smaller. *)
Fixpoint list_lt (v w : list part) : result bool :=
  match v, w with
  | x :: v', y :: w' => if part_eqb x y then list_lt v' w' else part_lt x y
  | [], _ :: _ => Ok true
  | _, [] => Ok false
  end.

(** [' ' in v] *)
Definition contains_space (v : pyval) : result bool :=
  match v with
  | PStr s => Ok (has_char space s)
  | PList l =>
      Ok (existsb (fun x => match x with
                            | PStr s => (s =? " ")%string
                            | _ => false
                            end) l)
  | PDict d => Ok (existsb (fun kv => (fst kv =? " ")%string) d)
  | PNone | PBool _ | PInt _ => Raise TypeError
  end.

(** [v.split()], an attribute of strings only. *)
Definition py_split_ws (v : pyval) : result (list string) :=
  match v with
  | PStr s => Ok (split_ws s)
  | _ => Raise AttributeError
  end.

(** [v.split('.')] *)
Definition py_split_dot (v : pyval) : result (list string) :=
  match v with
  | PStr s => Ok (split_on "."%char s)
  | _ => Raise AttributeError
  end.

(** [l[0]] *)
Definition first_item {A : Type} (l : list A) : result A :=
  match l with
  | x :: _ => Ok x
  | [] => Raise IndexError
  end.

(** [v.split()[0] if ' ' in v else v] *)
Definition clean_version (v : pyval) : result pyval :=
  let* b := contains_space v in
  if b then
    let* ws := py_split_ws v in
    let* w := first_item ws in
    Ok (PStr w)
  else Ok v.

(** [try: parts.append(int(part)) except ValueError: parts.append(part)] *)
Definition parse_part (p : string) : part :=
  match py_int p with
  | Ok n => Num n
  | Raise _ => Txt p
  end.

Definition parse_version (v : pyval) : result (list part) :=
  let* ps := py_split_dot v in
  Ok (map parse_part ps).

(** [v + [0] * (n - len(v))] *)
Definition pad_to (n : nat) (v : list part) : list part :=
  v ++ repeat (Num 0) (n - length v).

(** The [try] block of [compare_versions]. *)
Definition compare_cleaned (installed_clean available_clean : pyval)
  : result pyval :=
  try_except
    (let* v1 := parse_version installed_clean in
     let* v2 := parse_version available_clean in
     let max_len := Nat.max (length v1) (length v2) in
     let v1 := pad_to max_len v1 in
     let v2 := pad_to max_len v2 in
     let* b := list_lt v1 v2 in
     Ok (PBool b))
    (fun _ => Ok PNone).

(** [compare_versions]: [Ok (PBool true)] when an update is available,
    [Ok (PBool false)] when there is none, [Ok PNone] when the
    comparison failed. *)
Definition compare_versions (installed available : pyval) : result pyval :=
  if negb (truthy installed) || negb (truthy available) then Ok PNone
  else
    let* installed_clean := clean_version installed in
    let* available_clean := clean_version available in
    compare_cleaned installed_clean available_clean.

(** ** Child processes and the two output streams *)

(** What [subprocess.run] returns when the child has ended. *)
Record completed : Type := Completed {
  returncode : Z;
  stdout : string;
  stderr : string
}.

(** [subprocess.run] returns or raises ([TimeoutExpired] when the time
    is up, [FileNotFoundError] when there is no such program, ...). *)
Definition proc : Type := result completed.

(** What the script reads from outside: the three commands it runs, the
    decoder of the [json] library, and the order in which the tasks
    handed to the pool complete. *)
Record world : Type := World {
  json_loads : string -> result pyval;
  brew_search : proc;
  brew_info : string -> proc;
  osquery : proc;
  as_completed : list string -> list string
}.

(** The lines of the diagnostic stream, one constructor per [print] of
    the script, with the values its format string shows. *)
Inductive diag : Type :=
  | ErrorGettingCaskList (err : string)
  | BrewSearchTimedOut
  | ErrorGettingCaskTokens (e : exn)
  | GettingCaskList
  | FailedToGetCaskList
  | FoundCasks (n : nat)
  | BuildingDatabase
  | ErrorProcessingCask (token : string) (e : exn)
  | ProcessedCasks (i total : nat)
  | BuiltDatabase (n : nat)
  | ErrorQueryingOsquery (err : string)
  | OsqueryTimedOut
  | ErrorParsingOsquery (e : exn)
  | OsqueryNotFound
  | FailedToBuildDatabase
  | QueryingOsquery
  | NoAppsFound
  | FoundApps (n : nat)
  | MatchingApps
  | MatchedApps (n : nat)
  | UpdatesAvailable (n : nat)
  | Separator.

Inductive event : Type :=
  | Stderr (d : diag)
  | Stdout (doc : pyval).

(** A computation that prints and may raise: what it printed and how it
    ended. *)
Definition io (A : Type) : Type := (list event * result A)%type.

Definition io_ret {A : Type} (a : A) : io A := ([], Ok a).

Definition io_raise {A : Type} (e : exn) : io A := ([], Raise e).

Definition io_bind {A B : Type} (m : io A) (k : A -> io B) : io B :=
  match m with
  | (out, Ok a) => let '(out', r) := k a in ((out ++ out')%list, r)
  | (out, Raise e) => (out, Raise e)
  end.

Notation "'let!' x ':=' m 'in' k" := (io_bind m (fun x => k))
  (at level 10, x name, m at level 100, k at level 200).

Definition lift {A : Type} (r : result A) : io A := ([], r).

(** [try: body except e: handler e], keeping what [body] printed. *)
Definition io_try {A : Type} (body : io A) (handler : exn -> io A) : io A :=
  match body with
  | (out, Ok a) => (out, Ok a)
  | (out, Raise e) => let '(out', r) := handler e in ((out ++ out')%list, r)
  end.

Definition print_err (d : diag) : io unit := ([Stderr d], Ok tt).

(** The lines a loop has printed. *)
Definition emit (out : list event) : io unit := (out, Ok tt).

Definition print_out (doc : pyval) : io unit := ([Stdout doc], Ok tt).

(** ** The catalog *)

Definition newline : ascii := "010"%char.

(** [get_all_cask_tokens] *)
Definition get_all_cask_tokens (w : world) : io (list string) :=
  io_try
    (let! result := lift (brew_search w) in
     if negb (returncode result =? 0) then
       let! _ := print_err (ErrorGettingCaskList (stderr result)) in
       io_ret []
     else
       let lines := split_on newline (py_strip (stdout result)) in
       io_ret (map py_strip
                 (List.filter (fun line => truthy (PStr (py_strip line)))
                    lines)))
    (fun e =>
       match e with
       | TimeoutExpired =>
           let! _ := print_err BrewSearchTimedOut in
           io_ret []
       | _ =>
           let! _ := print_err (ErrorGettingCaskTokens e) in
           io_ret []
       end).

(** [v[0]] *)
Definition py_item0 (v : pyval) : result pyval :=
  match v with
  | PList l => first_item l
  | PStr s => first_item (map PStr (chars s))
  | PDict _ => Raise KeyError
  | PNone | PBool _ | PInt _ => Raise TypeError
  end.

(** [v[k]] for a string [k] *)
Definition py_item (v : pyval) (k : string) : result pyval :=
  match v with
  | PDict d =>
      match dict_lookup k d with
      | Some x => Ok x
      | None => Raise KeyError
      end
  | _ => Raise TypeError
  end.

(** [get_cask_info]: the three classes of the [except] clause cover
    every exception, and the handler falls through to [return None]. *)
Definition get_cask_info (w : world) (token : string) : result pyval :=
  let* found :=
    try_except
      (let* result := brew_info w token in
       if returncode result =? 0 then
         let* data := json_loads w (stdout result) in
         let* casks := py_get data "casks" PNone in
         if truthy casks then
           let* casks := py_item data "casks" in
           let* first := py_item0 casks in
           Ok (Some first)
         else Ok None
       else Ok None)
      (fun _ => Ok None) in
  match found with
  | Some first => Ok first
  | None => Ok PNone
  end.

(** [extract_app_names_from_cask] *)
Fixpoint extend_app_names (app_names : list pyval) (artifacts : list pyval)
  : result (list pyval) :=
  match artifacts with
  | [] => Ok app_names
  | artifact :: rest =>
      match artifact with
      | PDict d =>
          match dict_lookup "app" d with
          | Some names =>
              let* items := py_iter names in
              extend_app_names (app_names ++ items)%list rest
          | None => extend_app_names app_names rest
          end
      | _ => extend_app_names app_names rest
      end
  end.

Definition extract_app_names_from_cask (cask_data : pyval)
  : result (list pyval) :=
  let* artifacts := py_get cask_data "artifacts" (PList []) in
  let* artifacts := py_iter artifacts in
  extend_app_names [] artifacts.

(** *** The index

    A key of a Python dictionary is a hashable value, and two keys are
    the same when they are equal: [True] is [1] and [False] is [0]. *)
Inductive key : Type :=
  | KNone
  | KNum (n : Z)
  | KStr (s : string).

Definition py_hash (v : pyval) : result key :=
  match v with
  | PNone => Ok KNone
  | PBool b => Ok (KNum (if b then 1 else 0))
  | PInt n => Ok (KNum n)
  | PStr s => Ok (KStr s)
  | PList _ | PDict _ => Raise TypeError
  end.

Definition key_code (k : key) : unit + Z + string :=
  match k with
  | KNone => inl (inl tt)
  | KNum n => inl (inr n)
  | KStr s => inr s
  end.

Definition key_decode (c : unit + Z + string) : key :=
  match c with
  | inl (inl _) => KNone
  | inl (inr n) => KNum n
  | inr s => KStr s
  end.

#[global] Instance key_eq_dec : EqDecision key.
Proof. solve_decision. Defined.

#[global] Instance key_countable : Countable key.
Proof.
  apply (inj_countable' key_code key_decode).
  intros []; reflexivity.
Defined.

(** The two variables the loop of [build_cask_database] updates. *)
Record index_state : Type := IndexState {
  app_to_cask : gmap key pyval;
  processed : nat
}.

(** [if k not in db: db[k] = cask_data] *)
Definition store_if_absent (cask_data : pyval) (db : gmap key pyval) (k : key)
  : gmap key pyval :=
  match db !! k with
  | None => <[k := cask_data]> db
  | Some _ => db
  end.

(** [for app_name in app_names: ...]; the state keeps what was stored
    before a name that cannot be hashed stops the loop. *)
Fixpoint add_app_names (cask_data : pyval) (app_names : list pyval)
  (st : index_state) : index_state * result unit :=
  match app_names with
  | [] => (st, Ok tt)
  | app_name :: rest =>
      match py_hash app_name with
      | Raise e => (st, Raise e)
      | Ok k =>
          add_app_names cask_data rest
            {| app_to_cask := store_if_absent cask_data (app_to_cask st) k;
               processed := S (processed st) |}
      end
  end.

(** The body of the [try] for one completed task. *)
Definition process_future (outcome : result pyval) (st : index_state)
  : index_state * result unit :=
  match outcome with
  | Raise e => (st, Raise e)
  | Ok cask_data =>
      if truthy cask_data then
        match extract_app_names_from_cask cask_data with
        | Raise e => (st, Raise e)
        | Ok app_names => add_app_names cask_data app_names st
        end
      else (st, Ok tt)
  end.

(** One turn of [for i, future in enumerate(as_completed(futures), 1)]. *)
Definition index_step (total : nat) (i : nat) (task : string * result pyval)
  (acc : index_state * list event) : index_state * list event :=
  let '(st, out) := acc in
  let '(token, outcome) := task in
  let '(st', r) := process_future outcome st in
  let out1 :=
    match r with
    | Ok _ => []
    | Raise e => [Stderr (ErrorProcessingCask token e)]
    end in
  let out2 :=
    if (i mod 500 =? 0)%nat then [Stderr (ProcessedCasks i total)] else [] in
  (st', (out ++ out1 ++ out2)%list).

Fixpoint index_loop (total : nat) (i : nat)
  (tasks : list (string * result pyval)) (acc : index_state * list event)
  : index_state * list event :=
  match tasks with
  | [] => acc
  | task :: rest => index_loop total (S i) rest (index_step total i task acc)
  end.

Definition empty_index : index_state :=
  {| app_to_cask := ∅; processed := 0 |}.

(** The tasks in the order of their completion, each with what
    [future.result()] gives. *)
Definition completed_tasks (w : world) (tokens : list string)
  : list (string * result pyval) :=
  map (fun token => (token, get_cask_info w token)) (as_completed w tokens).

(** [build_cask_database] *)
Definition build_cask_database (w : world) : io (gmap key pyval) :=
  let! _ := print_err GettingCaskList in
  let! tokens := get_all_cask_tokens w in
  match tokens with
  | [] =>
      let! _ := print_err FailedToGetCaskList in
      io_ret ∅
  | _ =>
      let! _ := print_err (FoundCasks (length tokens)) in
      let! _ := print_err BuildingDatabase in
      let '(st, out) :=
        index_loop (length tokens) 1 (completed_tasks w tokens)
          (empty_index, []) in
      let! _ := emit out in
      let! _ := print_err (BuiltDatabase (size (app_to_cask st))) in
      io_ret (app_to_cask st)
  end.

(** ** The inventory *)

(** [get_installed_apps]: three classes of exception are handled, any
    other goes to the caller. *)
Definition get_installed_apps (w : world) : io pyval :=
  io_try
    (let! result := lift (osquery w) in
     if negb (returncode result =? 0) then
       let! _ := print_err (ErrorQueryingOsquery (stderr result)) in
       io_ret (PList [])
     else
       lift (json_loads w (stdout result)))
    (fun e =>
       match e with
       | TimeoutExpired =>
           let! _ := print_err OsqueryTimedOut in
           io_ret (PList [])
       | JSONDecodeError =>
           let! _ := print_err (ErrorParsingOsquery e) in
           io_ret (PList [])
       | FileNotFoundError =>
           let! _ := print_err OsqueryNotFound in
           io_ret (PList [])
       | _ => io_raise e
       end).

(** ** The matcher *)

(** [cask_db.get(app_name)] *)
Definition db_get (cask_db : gmap key pyval) (app_name : pyval)
  : result pyval :=
  let* k := py_hash app_name in
  match cask_db !! k with
  | Some cask_data => Ok cask_data
  | None => Ok PNone
  end.

(** The body of the loop of [match_apps_to_casks] for one app: the
    record to append, or nothing after [continue]. *)
Definition match_app (cask_db : gmap key pyval) (app : pyval)
  : result (option pyval) :=
  let* app_name := py_item app "name" in
  let* cask_data := db_get cask_db app_name in
  if negb (truthy cask_data) then Ok None
  else
    let* installed_version := py_get app "bundle_short_version" (PStr "") in
    let* available_version := py_get cask_data "version" (PStr "") in
    let* update_available :=
      compare_versions installed_version available_version in
    let* bundle_id := py_get app "bundle_identifier" (PStr "") in
    let* cask_token := py_get cask_data "token" (PStr "") in
    let* installed := py_get cask_data "installed" PNone in
    let* outdated := py_get cask_data "outdated" (PBool false) in
    Ok (Some (PDict [("app_name", app_name);
                     ("bundle_id", bundle_id);
                     ("installed_version", installed_version);
                     ("cask_token", cask_token);
                     ("cask_version", available_version);
                     ("update_available", update_available);
                     ("cask_installed", PBool (truthy installed));
                     ("outdated", outdated)])).

Fixpoint match_loop (cask_db : gmap key pyval) (apps : list pyval)
  (results : list pyval) : result (list pyval) :=
  match apps with
  | [] => Ok results
  | app :: rest =>
      let* r := match_app cask_db app in
      match r with
      | Some record => match_loop cask_db rest (results ++ [record])%list
      | None => match_loop cask_db rest results
      end
  end.

(** [match_apps_to_casks] *)
Definition match_apps_to_casks (apps : pyval) (cask_db : gmap key pyval)
  : result (list pyval) :=
  let* apps := py_iter apps in
  match_loop cask_db apps [].

(** ** The program *)

(** [len(v)] *)
Definition py_len (v : pyval) : result nat :=
  match v with
  | PList l => Ok (length l)
  | PStr s => Ok (String.length s)
  | PDict d => Ok (length d)
  | PNone | PBool _ | PInt _ => Raise TypeError
  end.

(** [r.get('update_available') is True] on a record of the matcher. *)
Definition update_flag (r : pyval) : bool :=
  match py_get r "update_available" PNone with
  | Ok (PBool true) => true
  | _ => false
  end.

(** [bool(cask_db)]: a dictionary is true when it has an entry. *)
Definition db_truthy (cask_db : gmap key pyval) : bool :=
  negb (size cask_db =? 0)%nat.

(** [main] *)
Definition main (w : world) : io Z :=
  let! cask_db := build_cask_database w in
  if negb (db_truthy cask_db) then
    let! _ := print_err FailedToBuildDatabase in
    io_ret 1
  else
    let! _ := print_err QueryingOsquery in
    let! apps := get_installed_apps w in
    if negb (truthy apps) then
      let! _ := print_err NoAppsFound in
      io_ret 1
    else
      let! n := lift (py_len apps) in
      let! _ := print_err (FoundApps n) in
      let! _ := print_err MatchingApps in
      let! results := lift (match_apps_to_casks apps cask_db) in
      let! _ := print_err (MatchedApps (length results)) in
      let updates_available := length (List.filter update_flag results) in
      let! _ :=
        if (updates_available =? 0)%nat then io_ret tt
        else print_err (UpdatesAvailable updates_available) in
      let! _ := print_err Separator in
      let! _ := print_out (PList results) in
      io_ret 0.

(** [sys.exit(main())]: the status of the process is the value [main]
    returns; an exception nobody handles ends the process with status 1. *)
Definition exit_status (r : result Z) : Z :=
  match r with
  | Ok code => code
  | Raise _ => 1
  end.

Definition run (w : world) : list event * Z :=
  let '(out, r) := main w in (out, exit_status r).

(** ** Notions the statements use *)

(** *** Version strings *)

(** The part of a string before its first white-space character. *)
Fixpoint before_whitespace (s : string) : string :=
  match s with
  | EmptyString => EmptyString
  | String c s' =>
      if isspace c then EmptyString else String c (before_whitespace s')
  end.

(** A string without any character that is not white space. *)
Fixpoint blank (s : string) : bool :=
  match s with
  | EmptyString => true
  | String c s' => isspace c && blank s'
  end.

(** The order of two components of the same kind: integers by value,
    strings by code points.  An integer and a string are not ordered. *)
Inductive part_less : part -> part -> Prop :=
  | less_num (a b : Z) : a < b -> part_less (Num a) (Num b)
  | less_txt (a b : string) :
      String.compare a b = Lt -> part_less (Txt a) (Txt b).

(** The lexicographic order of two sequences: the first position where
    they differ decides. *)
Inductive lex_less : list part -> list part -> Prop :=
  | lex_shorter (y : part) (w : list part) : lex_less [] (y :: w)
  | lex_here (x y : part) (v w : list part) :
      part_less x y -> lex_less (x :: v) (y :: w)
  | lex_next (x : part) (v w : list part) :
      lex_less v w -> lex_less (x :: v) (x :: w).

(** The sequence of a cleaned version string: split on the dot, each
    part an integer when it reads as one, both sequences padded with
    zeros to the length of the longer. *)
Definition version_parts (s : string) : list part :=
  map parse_part (split_on "."%char s).

Definition padded (s other : string) : list part :=
  pad_to (Nat.max (length (version_parts s)) (length (version_parts other)))
    (version_parts s).

(** One component is an integer and the other a string. *)
Definition mixed (x y : part) : Prop :=
  match x, y with
  | Num _, Txt _ | Txt _, Num _ => True
  | _, _ => False
  end.

Definition tab : ascii := "009"%char.

(** A version string with a tabulation and no space: [1.0<TAB>beta]. *)
Definition tabbed_version : string :=
  String "1" (String "." (String "0" (String tab "beta"))).

(** *** The index *)

(** The index the loop of [build_cask_database] leaves for the tasks
    [tasks], taken in the order of their completion. *)
Definition indexed (tasks : list (string * result pyval)) : gmap key pyval :=
  app_to_cask (index_loop (length tasks) 1 tasks (empty_index, [])).1.

(** The app names of a task: what [extract_app_names_from_cask] returns
    for the record the task fetched; none when the fetch raised or
    returned a false value, none when the extraction raised. *)
Definition app_names_of (outcome : result pyval) : list pyval :=
  match outcome with
  | Ok cask_data =>
      if truthy cask_data then
        match extract_app_names_from_cask cask_data with
        | Ok names => names
        | Raise _ => []
        end
      else []
  | Raise _ => []
  end.

(** The keys of the names before the first one that cannot be hashed. *)
Fixpoint hashed_prefix (names : list pyval) : list key :=
  match names with
  | [] => []
  | name :: rest =>
      match py_hash name with
      | Ok k => k :: hashed_prefix rest
      | Raise _ => []
      end
  end.

(** The keys the loop reaches while it handles a task. *)
Definition reached (outcome : result pyval) : list key :=
  hashed_prefix (app_names_of outcome).

(** The record of a task. *)
Definition record_of (outcome : result pyval) : pyval :=
  match outcome with
  | Ok cask_data => cask_data
  | Raise _ => PNone
  end.

(** The record of the first task that reaches the key [k]. *)
Fixpoint first_writer (k : key) (tasks : list (string * result pyval))
  : option pyval :=
  match tasks with
  | [] => None
  | task :: rest =>
      if bool_decide (k ∈ reached task.2) then Some (record_of task.2)
      else first_writer k rest
  end.

(** A fetch that gave a record: it returned, and not [None]. *)
Definition fetched (task : string * result pyval) : bool :=
  match task.2 with
  | Ok PNone => false
  | Ok _ => true
  | Raise _ => false
  end.

(** A record declares the name [s] when [s] is among the app names
    extracted from it. *)
Definition declares (outcome : result pyval) (s : string) : Prop :=
  PStr s ∈ app_names_of outcome.

Definition is_str (v : pyval) : Prop := exists s, v = PStr s.

(** Two records of the catalog.  The first renames one of its two apps,
    which the catalog writes as an object after the name. *)
Definition cask_a : pyval :=
  PDict [("token", PStr "a"); ("version", PStr "2.0");
         ("artifacts",
          PList [PDict [("app", PList [PStr "A.app";
                                       PDict [("target", PStr "B.app")]])];
                 PDict [("app", PList [PStr "Foo.app"])]])].

Definition cask_b : pyval :=
  PDict [("token", PStr "b"); ("version", PStr "1.0");
         ("artifacts", PList [PDict [("app", PList [PStr "Foo.app"])]])].

Definition cask_c : pyval :=
  PDict [("token", PStr "c"); ("version", PStr "3.0");
         ("artifacts", PList [PDict [("app", PList [PStr "Foo.app"])]])].

(** *** The matcher *)

(** The entry of the index under the name of an app. *)
Definition entry_of (cask_db : gmap key pyval) (app : pyval) : option pyval :=
  match py_item app "name" with
  | Ok name =>
      match py_hash name with
      | Ok k => cask_db !! k
      | Raise _ => None
      end
  | Raise _ => None
  end.

(** An app is matched when the index has an entry under its name and
    the entry is a true value (a record that is not empty). *)
Definition matched (cask_db : gmap key pyval) (app : pyval) : bool :=
  match entry_of cask_db app with
  | Some cask_data => truthy cask_data
  | None => false
  end.

(** The value of a field that holds a version, with the default of the
    matcher. *)
Definition version_field (k : string) (fields : list (string * pyval))
  : pyval :=
  match dict_lookup k fields with
  | Some v => v
  | None => PStr ""
  end.

(** A version the cleaning step accepts: a string that is not made of
    white space with a space in it. *)
Definition sound_version (v : pyval) : Prop :=
  exists s, v = PStr s /\ has_char space s && blank s = false.

(** A row of the inventory: an object whose name is a string and whose
    version is sound. *)
Definition installed_app (app : pyval) : Prop :=
  exists fields name,
    app = PDict fields
    /\ dict_lookup "name" fields = Some (PStr name)
    /\ sound_version (version_field "bundle_short_version" fields).

(** An index whose records are objects with a sound version. *)
Definition catalog_index (cask_db : gmap key pyval) : Prop :=
  forall k cask_data,
    cask_db !! k = Some cask_data -> truthy cask_data = true ->
    exists fields,
      cask_data = PDict fields
      /\ sound_version (version_field "version" fields).

(** *** Two states of the outside *)

Definition quoted (s : string) : string :=
  (String "034"%char s ++ String "034"%char "")%string.

(** The catalog has one cask, [foo], whose app is [Foo.app]. *)
Definition foo_cask : pyval :=
  PDict [("token", PStr "foo"); ("version", PStr "1.0");
         ("outdated", PBool false); ("installed", PNone);
         ("artifacts", PList [PDict [("app", PList [PStr "Foo.app"])]])].

Definition foo_info : pyval := PDict [("casks", PList [foo_cask])].

Definition foo_info_text : string :=
  ("{" ++ quoted "casks" ++ ": [{"
   ++ quoted "token" ++ ": " ++ quoted "foo" ++ ", "
   ++ quoted "version" ++ ": " ++ quoted "1.0" ++ ", "
   ++ quoted "outdated" ++ ": false, "
   ++ quoted "installed" ++ ": null, "
   ++ quoted "artifacts" ++ ": [{" ++ quoted "app" ++ ": ["
   ++ quoted "Foo.app" ++ "]}]}]}")%string.

(** The inventory has one app, [Foo.app], of the version [version]. *)
Definition foo_apps (version : string) : pyval :=
  PList [PDict [("name", PStr "Foo.app");
                ("path", PStr "/Applications/Foo.app");
                ("bundle_identifier", PStr "com.example.foo");
                ("bundle_short_version", PStr version)]].

Definition foo_apps_text (version : string) : string :=
  ("[{" ++ quoted "name" ++ ": " ++ quoted "Foo.app" ++ ", "
   ++ quoted "path" ++ ": " ++ quoted "/Applications/Foo.app" ++ ", "
   ++ quoted "bundle_identifier" ++ ": " ++ quoted "com.example.foo" ++ ", "
   ++ quoted "bundle_short_version" ++ ": " ++ quoted version
   ++ "}]")%string.

(** The decoder on the two texts above. *)
Definition decode_foo (version : string) (text : string) : result pyval :=
  if (text =? foo_info_text)%string then Ok foo_info
  else if (text =? foo_apps_text version)%string then Ok (foo_apps version)
  else Raise JSONDecodeError.

Definition foo_world (version : string) : world :=
  {| json_loads := decode_foo version;
     brew_search := Ok (Completed 0 (String "f" (String "o" (String "o"
                                      (String newline "")))) "");
     brew_info := fun token =>
       if (token =? "foo")%string then Ok (Completed 0 foo_info_text "")
       else Ok (Completed 1 "" "Error: no such cask");
     osquery := Ok (Completed 0 (foo_apps_text version) "");
     as_completed := fun tokens => tokens |}.

(** The streams of a run. *)
Definition printed_out (out : list event) : list pyval :=
  omap (fun ev => match ev with Stdout doc => Some doc | Stderr _ => None end)
    out.

(** The status and the standard output of [main], one [io_bind] after
    the other (the two equations are [io_bind_result] and
    [io_bind_printed] below). *)
Ltac io_steps lem_result lem_printed :=
  repeat (rewrite ?lem_result, ?lem_printed;
          cbn [print_err print_out lift io_ret fst snd negb py_len]).

(** *** Further notions *)

(** A component that is an integer. *)
Definition is_num (p : part) : Prop := exists n, p = Num n.

(** A cleaned version all of whose parts read as integers. *)
Definition numeric (s : string) : Prop := Forall is_num (version_parts s).

(** The component of a cleaned version at the position [i]: zero past
    the last part, as the padding gives. *)
Definition component (s : string) (i : nat) : part :=
  nth i (version_parts s) (Num 0).

(** The first position at which two cleaned versions differ holds a
    smaller component in [s] than in [t]. *)
Definition below (s t : string) : Prop :=
  exists i,
    (forall j, (j < i)%nat -> component s j = component t j)
    /\ part_less (component s i) (component t i).

(** *** The catalog and the program *)

(** [lstrip] on the list of the characters of a string. *)
Fixpoint drop_space (l : list ascii) : list ascii :=
  match l with
  | [] => []
  | c :: r => if isspace c then drop_space r else l
  end.

(** A list of characters that does not start with white space. *)
Definition starts_clean (l : list ascii) : Prop :=
  match l with
  | [] => True
  | c :: _ => isspace c = false
  end.

(** The names an artifact lists under ['app']. *)
Definition artifact_apps (artifact : pyval) : list pyval :=
  match artifact with
  | PDict d =>
      match dict_lookup "app" d with
      | Some (PList names) => names
      | _ => []
      end
  | _ => []
  end.

(** An artifact whose ['app'], when it has one, is a list. *)
Definition app_is_list (artifact : pyval) : Prop :=
  match artifact with
  | PDict d =>
      match dict_lookup "app" d with
      | Some v => exists names, v = PList names
      | None => True
      end
  | _ => True
  end.

(** A value that can be the key of a dictionary. *)
Definition hashable (v : pyval) : bool :=
  match py_hash v with
  | Ok _ => true
  | Raise _ => false
  end.

(** The exception that ends the handling of a task, when there is one:
    the one the fetch raised, the one the extraction of the names
    raised, or [TypeError] for a name that cannot be hashed. *)
Definition task_fault (outcome : result pyval) : option exn :=
  match outcome with
  | Raise e => Some e
  | Ok cask_data =>
      if truthy cask_data then
        match extract_app_names_from_cask cask_data with
        | Raise e => Some e
        | Ok names => if forallb hashable names then None else Some TypeError
        end
      else None
  end.

(** The faults and the progress a stream reports for the loop of the
    indexer. *)
Definition reported_faults (out : list event) : list (string * exn) :=
  omap (fun ev => match ev with
                  | Stderr (ErrorProcessingCask token e) => Some (token, e)
                  | _ => None
                  end) out.

Definition reported_progress (out : list event) : list (nat * nat) :=
  omap (fun ev => match ev with
                  | Stderr (ProcessedCasks i total) => Some (i, total)
                  | _ => None
                  end) out.

(** The exceptions [get_installed_apps] handles. *)
Definition handled_by_inventory (e : exn) : bool :=
  match e with
  | TimeoutExpired | JSONDecodeError | FileNotFoundError => true
  | _ => false
  end.

(** * Properties *)

(** ** The version comparator *)

Lemma part_eqb_eq (x y : part) : part_eqb x y = true <-> x = y.
Proof.
  destruct x as [a|a], y as [b|b]; simpl; split; intros H;
    try discriminate; try congruence.
  - apply Z.eqb_eq in H. congruence.
  - injection H as ->. apply Z.eqb_refl.
  - apply String.eqb_eq in H. congruence.
  - injection H as ->. apply String.eqb_refl.
Qed.

Lemma part_eqb_refl (x : part) : part_eqb x x = true.
Proof. apply part_eqb_eq. reflexivity. Qed.

Lemma string_compare_refl (s : string) : String.compare s s = Eq.
Proof.
  destruct (String.compare s s) eqn:E; [reflexivity | |];
    pose proof (String.compare_antisym s s) as H; rewrite E in H;
    discriminate.
Qed.

Lemma part_less_irrefl (x : part) : ~ part_less x x.
Proof.
  inversion 1; subst.
  - lia.
  - rewrite string_compare_refl in *. discriminate.
Qed.

Lemma part_less_lt (x y : part) :
  part_less x y <-> part_eqb x y = false /\ part_lt x y = Ok true.
Proof.
  split.
  - intros H. split.
    + destruct (part_eqb x y) eqn:E; [|reflexivity].
      apply part_eqb_eq in E. subst. destruct (part_less_irrefl _ H).
    + destruct H as [a b H|a b H]; simpl.
      * apply Z.ltb_lt in H. rewrite H. reflexivity.
      * unfold String.ltb. rewrite H. reflexivity.
  - intros [_ H]. destruct x as [a|a], y as [b|b]; simpl in H;
      try discriminate.
    + constructor. apply Z.ltb_lt. congruence.
    + constructor. unfold String.ltb in H.
      destruct (String.compare a b); congruence.
Qed.

(** The comparison of two lists by the interpreter is the lexicographic
    order, wherever it gives [True]. *)
Lemma list_lt_true (v w : list part) :
  list_lt v w = Ok true <-> lex_less v w.
Proof.
  revert w. induction v as [|x v IH]; intros [|y w]; simpl.
  - split; [discriminate | inversion 1].
  - split; [constructor | reflexivity].
  - split; [discriminate | inversion 1].
  - destruct (part_eqb x y) eqn:E.
    + apply part_eqb_eq in E. subst y. rewrite IH. split.
      * apply lex_next.
      * inversion 1; subst; [|assumption].
        destruct (part_less_irrefl x). assumption.
    + split.
      * intros H. apply lex_here. apply part_less_lt. auto.
      * inversion 1; subst.
        -- apply part_less_lt. assumption.
        -- rewrite part_eqb_refl in E. discriminate.
Qed.

Lemma list_lt_refl (v : list part) : list_lt v v = Ok false.
Proof.
  induction v as [|x v IH]; simpl; [reflexivity|].
  rewrite part_eqb_refl. exact IH.
Qed.

(** The first pair of unequal items is an integer and a string: the
    comparison raises. *)
Lemma list_lt_mixed (v w : list part) (i : nat) (x y : part) :
  (forall j, (j < i)%nat -> v !! j = w !! j) ->
  v !! i = Some x -> w !! i = Some y -> mixed x y ->
  list_lt v w = Raise TypeError.
Proof.
  revert w i. induction v as [|a v IH]; intros [|b w] [|i] Hpre Hx Hy Hm;
    try discriminate.
  - simpl in Hx, Hy. injection Hx as ->. injection Hy as ->.
    destruct x, y; simpl in *; tauto.
  - simpl in Hx, Hy. simpl.
    assert (a = b) as ->.
    { specialize (Hpre 0%nat ltac:(lia)). simpl in Hpre. congruence. }
    rewrite part_eqb_refl. apply (IH w i); auto.
    intros j Hj. apply (Hpre (S j)). lia.
Qed.

(** What [compare_versions] does on two strings. *)
Lemma compare_versions_str (a b : string) :
  a <> "" -> b <> "" ->
  compare_versions (PStr a) (PStr b) =
    let* ca := clean_version (PStr a) in
    let* cb := clean_version (PStr b) in
    compare_cleaned ca cb.
Proof.
  intros Ha Hb. unfold compare_versions. simpl.
  apply String.eqb_neq in Ha, Hb. rewrite Ha, Hb. reflexivity.
Qed.

Lemma compare_cleaned_str (ca cb : string) :
  compare_cleaned (PStr ca) (PStr cb) =
    match list_lt (padded ca cb) (padded cb ca) with
    | Ok b => Ok (PBool b)
    | Raise _ => Ok PNone
    end.
Proof.
  unfold compare_cleaned, padded, version_parts. simpl.
  rewrite (Nat.max_comm (length (map parse_part (split_on "." cb)))).
  destruct (list_lt _ _); reflexivity.
Qed.

Lemma padded_length (a b : string) :
  length (padded a b) = length (padded b a).
Proof.
  unfold padded, pad_to. rewrite !length_app, !repeat_length. lia.
Qed.

(** *** The cleaning step *)

Lemma append_cons (c : ascii) (s t : string) :
  (String c s ++ t)%string = String c (s ++ t)%string.
Proof. reflexivity. Qed.

Lemma append_empty_r (s : string) : (s ++ "")%string = s.
Proof.
  induction s as [|c s IH]; [reflexivity|].
  rewrite append_cons, IH. reflexivity.
Qed.

Lemma append_cons_r (s t : string) (c : ascii) :
  ((s ++ String c "") ++ t)%string = (s ++ String c t)%string.
Proof.
  induction s as [|d s IH]; [reflexivity|].
  rewrite !append_cons, IH. reflexivity.
Qed.

Lemma append_not_empty (s : string) (c : ascii) :
  (s ++ String c "")%string <> "".
Proof. destruct s; discriminate. Qed.

(** A run that has begun ends at the next white space. *)
Lemma split_ws_from_first (s w : string) :
  w <> "" ->
  exists rest, split_ws_from w s = (w ++ before_whitespace s)%string :: rest.
Proof.
  revert w. induction s as [|c s IH]; intros w Hw; simpl.
  - apply String.eqb_neq in Hw. rewrite Hw, append_empty_r. eauto.
  - destruct (isspace c).
    + apply String.eqb_neq in Hw. rewrite Hw, append_empty_r. eauto.
    + destruct (IH (w ++ String c "")%string (append_not_empty w c))
        as [rest Hrest].
      rewrite Hrest, append_cons_r. eauto.
Qed.

Lemma split_ws_lstrip (s : string) : split_ws s = split_ws (lstrip s).
Proof.
  unfold split_ws. induction s as [|c s IH]; simpl; [reflexivity|].
  destruct (isspace c) eqn:E; simpl; [exact IH|].
  rewrite E. reflexivity.
Qed.

Lemma lstrip_first (s : string) :
  lstrip s = "" \/ exists c t, lstrip s = String c t /\ isspace c = false.
Proof.
  induction s as [|c s IH]; simpl; [left; reflexivity|].
  destruct (isspace c) eqn:E; [exact IH|]. right. eauto.
Qed.

Lemma blank_lstrip (s : string) : blank s = true <-> lstrip s = "".
Proof.
  induction s as [|c s IH]; simpl; [tauto|].
  destruct (isspace c); simpl; [exact IH|]. split; discriminate.
Qed.

Lemma split_ws_blank (s : string) : blank s = true -> split_ws s = [].
Proof.
  intros H. rewrite split_ws_lstrip. apply blank_lstrip in H.
  rewrite H. reflexivity.
Qed.

Lemma split_ws_first (s : string) :
  blank s = false ->
  exists rest, split_ws s = before_whitespace (lstrip s) :: rest.
Proof.
  intros H. rewrite split_ws_lstrip.
  destruct (lstrip_first s) as [E|(c & t & E & Hc)].
  - apply blank_lstrip in E. congruence.
  - rewrite E. unfold split_ws. simpl. rewrite Hc.
    destruct (split_ws_from_first t ("" ++ String c "")%string
                (append_not_empty "" c)) as [rest Hrest].
    rewrite Hrest, append_cons_r. exists rest. reflexivity.
Qed.

(** The three ways of the cleaning step on a string. *)
Lemma clean_version_plain (s : string) :
  has_char space s = false -> clean_version (PStr s) = Ok (PStr s).
Proof. intros H. unfold clean_version. simpl. rewrite H. reflexivity. Qed.

Lemma clean_version_word (s : string) :
  has_char space s = true -> blank s = false ->
  clean_version (PStr s) = Ok (PStr (before_whitespace (lstrip s))).
Proof.
  intros H Hb. unfold clean_version. simpl. rewrite H.
  destruct (split_ws_first s Hb) as [rest ->]. reflexivity.
Qed.

Lemma clean_version_blank (s : string) :
  has_char space s = true -> blank s = true ->
  clean_version (PStr s) = Raise IndexError.
Proof.
  intros H Hb. unfold clean_version. simpl. rewrite H.
  rewrite (split_ws_blank s Hb). reflexivity.
Qed.

Lemma clean_version_is_str (s : string) (c : pyval) :
  clean_version (PStr s) = Ok c -> exists t, c = PStr t.
Proof.
  unfold clean_version. simpl. destruct (has_char space s).
  - destruct (split_ws s); simpl; [discriminate|].
    intros [= <-]. eauto.
  - intros [= <-]. eauto.
Qed.

(** The one case in which the cleaning step raises. *)
Lemma clean_version_raises (s : string) :
  raises (clean_version (PStr s)) = has_char space s && blank s.
Proof.
  destruct (has_char space s) eqn:H, (blank s) eqn:Hb; simpl.
  - rewrite clean_version_blank; auto.
  - rewrite clean_version_word; auto.
  - rewrite clean_version_plain; auto.
  - rewrite clean_version_plain; auto.
Qed.

Lemma compare_cleaned_returns (ca cb : string) :
  exists v, compare_cleaned (PStr ca) (PStr cb) = Ok v
            /\ (v = PNone \/ exists b, v = PBool b).
Proof.
  rewrite compare_cleaned_str. destruct (list_lt _ _); eauto.
Qed.

(** On two strings [compare_versions] raises in one case only: both are
    not empty, and the first, or else the second, holds a space and
    nothing but white space. *)
Lemma compare_versions_str_raises (a b : string) :
  raises (compare_versions (PStr a) (PStr b)) =
    negb (a =? "")%string && negb (b =? "")%string
    && (has_char space a && blank a || has_char space b && blank b).
Proof.
  destruct (String.eqb_spec a "") as [->|Ha]; [reflexivity|].
  destruct (String.eqb_spec b "") as [->|Hb].
  { unfold compare_versions. simpl. apply String.eqb_neq in Ha.
    rewrite Ha. reflexivity. }
  rewrite compare_versions_str by assumption. simpl.
  rewrite <- !clean_version_raises.
  destruct (clean_version (PStr a)) as [ca|e] eqn:Ea; simpl; [|reflexivity].
  destruct (clean_version (PStr b)) as [cb|e] eqn:Eb; simpl; [|reflexivity].
  destruct (clean_version_is_str _ _ Ea) as [ta ->].
  destruct (clean_version_is_str _ _ Eb) as [tb ->].
  destruct (compare_cleaned_returns ta tb) as (v & -> & _). reflexivity.
Qed.

(** C1 (claim C1).  The comparator does not return on every pair of
    strings: for an installed version made of one space the cleaning
    step, which stands before the [try] block, takes the first item of
    an empty list, and [IndexError] leaves [compare_versions]. *)
Theorem compare_versions_blank_raises :
  compare_versions (PStr " ") (PStr "1.0") = Raise IndexError.
Proof. reflexivity. Qed.

(** C3 (claim C3).  For two version strings that are not empty and that
    the cleaning step turns into [ca] and [cb], the comparator returns
    [True] exactly when the sequence of [ca] (split on the dot, each
    part an integer when it reads as one, padded with zeros to the
    length of the longer) is below the sequence of [cb] in the
    lexicographic order; and [compare("1.2.0", "1.2.1")] is [True],
    [compare("2.0", "1.9.9")] and [compare("1.2", "1.2.0")] are
    [False]. *)
Theorem compare_versions_lexicographic :
  (forall a b ca cb : string,
     a <> "" -> b <> "" ->
     clean_version (PStr a) = Ok (PStr ca) ->
     clean_version (PStr b) = Ok (PStr cb) ->
     length (padded ca cb) = length (padded cb ca)
     /\ (compare_versions (PStr a) (PStr b) = Ok (PBool true)
         <-> lex_less (padded ca cb) (padded cb ca)))
  /\ compare_versions (PStr "1.2.0") (PStr "1.2.1") = Ok (PBool true)
  /\ compare_versions (PStr "2.0") (PStr "1.9.9") = Ok (PBool false)
  /\ compare_versions (PStr "1.2") (PStr "1.2.0") = Ok (PBool false).
Proof.
  split; [|repeat split; reflexivity].
  intros a b ca cb Ha Hb Ea Eb. split; [apply padded_length|].
  rewrite compare_versions_str by assumption.
  rewrite Ea, Eb. simpl. rewrite compare_cleaned_str.
  rewrite <- list_lt_true.
  destruct (list_lt _ _) as [[|]|e]; split; congruence.
Qed.

Lemma compare_versions_lexicographic_witness :
  lex_less (padded "1.2.0" "1.2.1") (padded "1.2.1" "1.2.0").
Proof.
  destruct compare_versions_lexicographic as [H _].
  destruct (H "1.2.0" "1.2.1" "1.2.0" "1.2.1") as [_ Hlt];
    [discriminate | discriminate | reflexivity | reflexivity |].
  apply Hlt. reflexivity.
Defined.

(** C10 (claim C10).  When the two padded sequences first differ at a
    position where one holds an integer and the other a string, the
    comparator returns [None]. *)
Theorem compare_versions_mixed (a b ca cb : string) (i : nat) (x y : part) :
  a <> "" -> b <> "" ->
  clean_version (PStr a) = Ok (PStr ca) ->
  clean_version (PStr b) = Ok (PStr cb) ->
  (forall j, (j < i)%nat -> padded ca cb !! j = padded cb ca !! j) ->
  padded ca cb !! i = Some x ->
  padded cb ca !! i = Some y ->
  mixed x y ->
  compare_versions (PStr a) (PStr b) = Ok PNone.
Proof.
  intros Ha Hb Ea Eb Hpre Hx Hy Hm.
  rewrite compare_versions_str by assumption.
  rewrite Ea, Eb. simpl. rewrite compare_cleaned_str.
  rewrite (list_lt_mixed _ _ i x y); auto.
Qed.

Lemma compare_versions_mixed_witness :
  compare_versions (PStr "1.a build 7") (PStr "1.2") = Ok PNone.
Proof.
  apply (compare_versions_mixed "1.a build 7" "1.2" "1.a" "1.2" 1
           (Txt "a") (Num 2));
    try discriminate; try reflexivity.
  intros [|j] Hj; [reflexivity | lia].
Defined.

(** Claim C8 fails at the pair of two empty strings: they are equal
    after the cleaning step, and the comparator returns [None]. *)
Lemma compare_versions_empty_pair :
  clean_version (PStr "") = Ok (PStr "")
  /\ compare_versions (PStr "") (PStr "") = Ok PNone
  /\ compare_versions (PStr "") (PStr "") <> Ok (PBool false).
Proof. repeat split. discriminate. Qed.

(** C8 (claim C8, amended).  For two version strings that are not
    empty and that the cleaning step turns into the same string, the
    comparator returns [False]. *)
Theorem compare_versions_equal_clean (a b : string) (c : pyval) :
  a <> "" -> b <> "" ->
  clean_version (PStr a) = Ok c ->
  clean_version (PStr b) = Ok c ->
  compare_versions (PStr a) (PStr b) = Ok (PBool false).
Proof.
  intros Ha Hb Ea Eb.
  rewrite compare_versions_str by assumption.
  rewrite Ea, Eb. simpl.
  destruct (clean_version_is_str _ _ Ea) as [t ->].
  rewrite compare_cleaned_str, list_lt_refl. reflexivity.
Qed.

Lemma compare_versions_equal_clean_witness :
  compare_versions (PStr "3.1 (41)") (PStr "3.1 rc") = Ok (PBool false).
Proof.
  apply (compare_versions_equal_clean "3.1 (41)" "3.1 rc" (PStr "3.1"));
    try discriminate; reflexivity.
Defined.

(** Claim C4 fails at [1.0<TAB>beta]: the string holds no space, the
    cleaning step returns it whole, and the part before its first
    white-space character is [1.0]. *)
Lemma clean_version_keeps_tab :
  before_whitespace tabbed_version = "1.0"
  /\ clean_version (PStr tabbed_version) = Ok (PStr tabbed_version)
  /\ clean_version (PStr tabbed_version)
     <> Ok (PStr (before_whitespace tabbed_version)).
Proof. repeat split. discriminate. Qed.

(** C4 (claim C4, amended).  A version string without a space goes
    through the cleaning step unchanged, whatever other white space it
    holds.  A version string with a space and with a character that is
    not white space is cut to its first run of such characters: the
    part before the first white space, once the white space at its
    start is skipped; for a string that does not start with white space
    this is the part before its first white-space character.  The
    comparator splits on the dot what the cleaning step returned, and
    [compare("2.5.1 release (770)", "2.5.2 release (771)")] is
    [True]. *)
Theorem clean_version_first_word :
  (forall s : string,
     has_char space s = false -> clean_version (PStr s) = Ok (PStr s))
  /\ (forall s : string,
        has_char space s = true -> blank s = false ->
        clean_version (PStr s) = Ok (PStr (before_whitespace (lstrip s))))
  /\ (forall s : string,
        has_char space s = true -> lstrip s = s ->
        clean_version (PStr s) = Ok (PStr (before_whitespace s)))
  /\ (forall (a b : string) (ca cb : pyval),
        a <> "" -> b <> "" ->
        clean_version (PStr a) = Ok ca ->
        clean_version (PStr b) = Ok cb ->
        compare_versions (PStr a) (PStr b) = compare_cleaned ca cb)
  /\ compare_versions (PStr "2.5.1 release (770)")
       (PStr "2.5.2 release (771)") = Ok (PBool true).
Proof.
  split; [apply clean_version_plain|].
  split; [apply clean_version_word|].
  split.
  { intros s H Hs. rewrite <- Hs at 2. apply clean_version_word; [assumption|].
    destruct (blank s) eqn:Hb; [|reflexivity].
    apply blank_lstrip in Hb. rewrite Hs in Hb. subst s. discriminate. }
  split; [|reflexivity].
  intros a b ca cb Ha Hb Ea Eb.
  rewrite compare_versions_str by assumption.
  rewrite Ea, Eb. reflexivity.
Qed.

Lemma clean_version_first_word_witness :
  clean_version (PStr "2.5.1 release (770)") = Ok (PStr "2.5.1").
Proof.
  destruct clean_version_first_word as (_ & _ & H & _).
  apply (H "2.5.1 release (770)"); reflexivity.
Defined.

(** ** The catalog *)

(** *** The detail fetcher *)

Lemma get_cask_info_returns (w : world) (token : string) :
  exists v, get_cask_info w token = Ok v.
Proof.
  unfold get_cask_info.
  destruct (try_except _ _) as [[first|]|e] eqn:E; simpl; eauto.
  unfold try_except in E.
  destruct (bind (brew_info w token) _) as [x|e']; discriminate.
Qed.

Lemma get_cask_info_fault (w : world) (token : string) (e : exn) :
  brew_info w token = Raise e -> get_cask_info w token = Ok PNone.
Proof. unfold get_cask_info. intros ->. reflexivity. Qed.

Lemma get_cask_info_exit (w : world) (token : string) (r : completed) :
  brew_info w token = Ok r -> returncode r <> 0 ->
  get_cask_info w token = Ok PNone.
Proof.
  unfold get_cask_info. intros -> H. simpl.
  apply Z.eqb_neq in H. rewrite H. reflexivity.
Qed.

Lemma get_cask_info_malformed (w : world) (token : string) (r : completed)
  (e : exn) :
  brew_info w token = Ok r -> json_loads w (stdout r) = Raise e ->
  get_cask_info w token = Ok PNone.
Proof.
  unfold get_cask_info. intros -> H. simpl.
  destruct (returncode r =? 0); [|reflexivity]. rewrite H. reflexivity.
Qed.

(** What the fetcher returns once the command has ended with status 0
    and its output has been decoded. *)
Lemma get_cask_info_decoded (w : world) (token : string) (r : completed)
  (data : pyval) :
  brew_info w token = Ok r -> returncode r = 0 ->
  json_loads w (stdout r) = Ok data ->
  get_cask_info w token =
    match data with
    | PDict d =>
        match dict_lookup "casks" d with
        | Some (PList (first :: _)) => Ok first
        | Some (PStr (String c _)) => Ok (PStr (String c ""))
        | _ => Ok PNone
        end
    | _ => Ok PNone
    end.
Proof.
  unfold get_cask_info. intros -> Hrc Hd. simpl. rewrite Hrc. simpl.
  rewrite Hd. simpl.
  destruct data as [| | | | |d]; try reflexivity. simpl.
  destruct (dict_lookup "casks" d) as [casks|] eqn:E; simpl; [|reflexivity].
  destruct casks as [|[]|n|[|c s]|[|x l]|[|kv d']]; simpl;
    try reflexivity; rewrite ?E; simpl; try reflexivity.
  destruct (n =? 0); simpl; rewrite ?E; reflexivity.
Qed.

(** C5 (claim C5).  The detail fetcher never raises.  It returns [None]
    when the command raised (the time was up, or any other fault), when
    the command ended with a status other than 0, when its output could
    not be decoded, and when the decoded object has no ['casks'] or an
    empty list there.  It returns the first item of the list under
    ['casks'] when the command ended with status 0 and its output was
    decoded to an object with a list that is not empty; and it returns
    a record (an object) in that case only. *)
Theorem get_cask_info_contract (w : world) (token : string) :
  (exists v, get_cask_info w token = Ok v)
  /\ (forall e, brew_info w token = Raise e ->
        get_cask_info w token = Ok PNone)
  /\ (forall r, brew_info w token = Ok r -> returncode r <> 0 ->
        get_cask_info w token = Ok PNone)
  /\ (forall r e, brew_info w token = Ok r ->
        json_loads w (stdout r) = Raise e ->
        get_cask_info w token = Ok PNone)
  /\ (forall r d, brew_info w token = Ok r -> returncode r = 0 ->
        json_loads w (stdout r) = Ok (PDict d) ->
        dict_lookup "casks" d = None
        \/ dict_lookup "casks" d = Some (PList []) ->
        get_cask_info w token = Ok PNone)
  /\ (forall r d first rest, brew_info w token = Ok r -> returncode r = 0 ->
        json_loads w (stdout r) = Ok (PDict d) ->
        dict_lookup "casks" d = Some (PList (first :: rest)) ->
        get_cask_info w token = Ok first)
  /\ (forall record, get_cask_info w token = Ok (PDict record) ->
        exists r d rest,
          brew_info w token = Ok r /\ returncode r = 0
          /\ json_loads w (stdout r) = Ok (PDict d)
          /\ dict_lookup "casks" d = Some (PList (PDict record :: rest))).
Proof.
  split; [apply get_cask_info_returns|].
  split; [apply get_cask_info_fault|].
  split; [apply get_cask_info_exit|].
  split; [apply get_cask_info_malformed|].
  split.
  { intros r d Hr Hrc Hd Hc.
    rewrite (get_cask_info_decoded w token r (PDict d)) by assumption.
    destruct Hc as [-> | ->]; reflexivity. }
  split.
  { intros r d first rest Hr Hrc Hd Hc.
    rewrite (get_cask_info_decoded w token r (PDict d)) by assumption.
    rewrite Hc. reflexivity. }
  intros record H.
  destruct (brew_info w token) as [r|e] eqn:Hr.
  2: { rewrite (get_cask_info_fault w token e Hr) in H. discriminate. }
  destruct (Z.eq_dec (returncode r) 0) as [Hrc|Hrc].
  2: { rewrite (get_cask_info_exit w token r Hr Hrc) in H. discriminate. }
  destruct (json_loads w (stdout r)) as [data|e] eqn:Hd.
  2: { rewrite (get_cask_info_malformed w token r e Hr Hd) in H.
       discriminate. }
  rewrite (get_cask_info_decoded w token r data Hr Hrc Hd) in H.
  destruct data as [| | | | |d]; try discriminate.
  destruct (dict_lookup "casks" d) as [[| | |[|c s]|[|x l]|]|] eqn:E;
    try discriminate.
  injection H as ->. exists r, d, l. auto.
Qed.

(** *** The indexer *)

Lemma store_if_absent_lookup (c : pyval) (db : gmap key pyval) (k k' : key) :
  store_if_absent c db k !! k' =
    match db !! k' with
    | Some v => Some v
    | None => if decide (k = k') then Some c else None
    end.
Proof.
  unfold store_if_absent. destruct (db !! k) as [v|] eqn:E.
  - destruct (db !! k') as [v'|] eqn:E'; [reflexivity|].
    destruct (decide (k = k')) as [->|]; congruence.
  - rewrite lookup_insert. destruct (decide (k = k')) as [->|].
    + rewrite E. reflexivity.
    + destruct (db !! k'); reflexivity.
Qed.

Lemma store_if_absent_size (c : pyval) (db : gmap key pyval) (k : key) :
  (size (store_if_absent c db k) <= S (size db))%nat.
Proof.
  unfold store_if_absent. destruct (db !! k) eqn:E; [lia|].
  rewrite map_size_insert_None by assumption. lia.
Qed.

(** The inner loop stores the record under the keys it reaches, where
    nothing is stored yet. *)
Lemma add_app_names_lookup (c : pyval) (names : list pyval)
  (st : index_state) (k : key) :
  app_to_cask (add_app_names c names st).1 !! k =
    match app_to_cask st !! k with
    | Some v => Some v
    | None => if bool_decide (k ∈ hashed_prefix names) then Some c else None
    end.
Proof.
  revert st. induction names as [|name rest IH]; intros st; simpl.
  - destruct (app_to_cask st !! k); reflexivity.
  - destruct (py_hash name) as [k0|e]; simpl.
    + rewrite IH. simpl. rewrite store_if_absent_lookup.
      destruct (app_to_cask st !! k) as [v|]; [reflexivity|].
      destruct (decide (k0 = k)) as [->|Hne].
      * rewrite bool_decide_eq_true_2 by apply list_elem_of_here.
        reflexivity.
      * rewrite (bool_decide_ext (k ∈ k0 :: hashed_prefix rest)
                   (k ∈ hashed_prefix rest)); [reflexivity|].
        rewrite elem_of_cons. split; [|auto].
        intros [->|H]; [congruence | assumption].
    + destruct (app_to_cask st !! k); reflexivity.
Qed.

Lemma add_app_names_size (c : pyval) (names : list pyval) (st : index_state) :
  (size (app_to_cask (add_app_names c names st).1)
   <= size (app_to_cask st) + length (hashed_prefix names))%nat.
Proof.
  revert st. induction names as [|name rest IH]; intros st; simpl; [lia|].
  destruct (py_hash name) as [k0|e]; simpl; [|lia].
  etransitivity; [apply IH|]. simpl.
  pose proof (store_if_absent_size c (app_to_cask st) k0). lia.
Qed.

Lemma process_future_lookup (outcome : result pyval) (st : index_state)
  (k : key) :
  app_to_cask (process_future outcome st).1 !! k =
    match app_to_cask st !! k with
    | Some v => Some v
    | None =>
        if bool_decide (k ∈ reached outcome) then Some (record_of outcome)
        else None
    end.
Proof.
  unfold process_future, reached, app_names_of, record_of.
  destruct outcome as [c|e]; simpl.
  - destruct (truthy c); simpl.
    + destruct (extract_app_names_from_cask c) as [names|e]; simpl.
      * apply add_app_names_lookup.
      * destruct (app_to_cask st !! k); reflexivity.
    + destruct (app_to_cask st !! k); reflexivity.
  - destruct (app_to_cask st !! k); reflexivity.
Qed.

Lemma process_future_size (outcome : result pyval) (st : index_state) :
  (size (app_to_cask (process_future outcome st).1)
   <= size (app_to_cask st) + length (reached outcome))%nat.
Proof.
  unfold process_future, reached, app_names_of.
  destruct outcome as [c|e]; simpl; [|lia].
  destruct (truthy c); simpl; [|lia].
  destruct (extract_app_names_from_cask c) as [names|e]; simpl; [|lia].
  apply add_app_names_size.
Qed.

Lemma index_step_state (total i : nat) (task : string * result pyval)
  (st : index_state) (out : list event) :
  (index_step total i task (st, out)).1 = (process_future task.2 st).1.
Proof.
  unfold index_step. destruct task as [token outcome]. simpl.
  destruct (process_future outcome st). reflexivity.
Qed.

(** The index after the loop: what was there stays, and a new key holds
    the record of the first task that reached it. *)
Lemma index_loop_lookup (total i : nat) (tasks : list (string * result pyval))
  (acc : index_state * list event) (k : key) :
  app_to_cask (index_loop total i tasks acc).1 !! k =
    match app_to_cask acc.1 !! k with
    | Some v => Some v
    | None => first_writer k tasks
    end.
Proof.
  revert i acc. induction tasks as [|task rest IH]; intros i [st out].
  - simpl. destruct (app_to_cask st !! k); reflexivity.
  - cbn [index_loop first_writer].
    rewrite IH, index_step_state, process_future_lookup. simpl.
    destruct (app_to_cask st !! k); [reflexivity|].
    destruct (bool_decide (k ∈ reached task.2)); [reflexivity|].
    reflexivity.
Qed.

Lemma indexed_lookup (tasks : list (string * result pyval)) (k : key) :
  indexed tasks !! k = first_writer k tasks.
Proof. unfold indexed. rewrite index_loop_lookup. reflexivity. Qed.

Lemma index_loop_size (total i : nat) (tasks : list (string * result pyval))
  (acc : index_state * list event) :
  (size (app_to_cask (index_loop total i tasks acc).1)
   <= size (app_to_cask acc.1)
      + sum_list (map (fun task => length (reached task.2)) tasks))%nat.
Proof.
  revert i acc. induction tasks as [|task rest IH]; intros i [st out].
  - simpl. lia.
  - cbn [index_loop]. etransitivity; [apply IH|]. rewrite index_step_state.
    pose proof (process_future_size task.2 st). simpl. lia.
Qed.

Lemma hashed_prefix_length (names : list pyval) :
  (length (hashed_prefix names) <= length names)%nat.
Proof.
  induction names as [|name rest IH]; simpl; [lia|].
  destruct (py_hash name); simpl; lia.
Qed.

Lemma hashed_prefix_elem (names : list pyval) (k : key) :
  k ∈ hashed_prefix names -> exists name, name ∈ names /\ py_hash name = Ok k.
Proof.
  induction names as [|name rest IH]; simpl.
  - intros H. apply elem_of_nil in H. destruct H.
  - destruct (py_hash name) as [k0|e] eqn:E.
    + intros H. apply elem_of_cons in H as [->|H].
      * exists name. split; [apply list_elem_of_here | assumption].
      * destruct (IH H) as (n & Hn & Hk). exists n.
        split; [apply list_elem_of_further|]; assumption.
    + intros H. apply elem_of_nil in H. destruct H.
Qed.

(** When every name can be hashed the loop reaches them all. *)
Lemma hashed_prefix_all (names : list pyval) :
  Forall is_str names ->
  forall s, KStr s ∈ hashed_prefix names <-> PStr s ∈ names.
Proof.
  induction 1 as [|name rest [t ->] _ IH]; intros s; simpl.
  - split; intros H; apply elem_of_nil in H; destruct H.
  - rewrite !elem_of_cons, IH. split; intros [H|H]; auto; left; congruence.
Qed.

(** The decomposition of the list of tasks at the first writer. *)
Lemma first_writer_split (k : key) (tasks : list (string * result pyval))
  (c : pyval) :
  first_writer k tasks = Some c <->
  exists pre task post,
    tasks = (pre ++ task :: post)%list
    /\ record_of task.2 = c
    /\ k ∈ reached task.2
    /\ (forall t, t ∈ pre -> k ∉ reached t.2).
Proof.
  induction tasks as [|task rest IH]; simpl.
  - split; [discriminate|]. intros (pre & t & post & H & _).
    destruct pre; discriminate.
  - destruct (bool_decide (k ∈ reached task.2)) eqn:E.
    + apply bool_decide_eq_true in E. split.
      * intros [= <-]. exists [], task, rest. repeat split; auto.
        intros t Ht. apply elem_of_nil in Ht. destruct Ht.
      * intros (pre & t & post & H & Hc & Hk & Hpre).
        destruct pre as [|p pre]; simpl in H.
        -- injection H as -> ->. congruence.
        -- injection H as -> ->.
           destruct (Hpre p (list_elem_of_here _ _)). assumption.
    + apply bool_decide_eq_false in E. rewrite IH. split.
      * intros (pre & t & post & -> & Hc & Hk & Hpre).
        exists (task :: pre), t, post. repeat split; auto.
        intros t' Ht'. apply elem_of_cons in Ht' as [->|Ht']; auto.
      * intros (pre & t & post & H & Hc & Hk & Hpre).
        destruct pre as [|p pre]; simpl in H.
        -- injection H as -> ->. contradiction.
        -- injection H as -> ->. exists pre, t, post. repeat split; auto.
           intros t' Ht'. apply Hpre. apply list_elem_of_further. assumption.
Qed.

Lemma reached_record (outcome : result pyval) (k : key) :
  k ∈ reached outcome ->
  exists c names name,
    outcome = Ok c /\ truthy c = true
    /\ extract_app_names_from_cask c = Ok names
    /\ name ∈ names /\ py_hash name = Ok k.
Proof.
  unfold reached, app_names_of. destruct outcome as [c|e]; simpl.
  - destruct (truthy c) eqn:Ht.
    + destruct (extract_app_names_from_cask c) as [names|e] eqn:E.
      * intros H. apply hashed_prefix_elem in H as (name & Hn & Hk).
        exists c, names, name. auto.
      * intros H. apply elem_of_nil in H. destruct H.
    + intros H. apply elem_of_nil in H. destruct H.
  - intros H. apply elem_of_nil in H. destruct H.
Qed.

Lemma app_names_unfetched (task : string * result pyval) :
  fetched task = false -> app_names_of task.2 = [].
Proof.
  unfold fetched, app_names_of. destruct task.2 as [[]|e]; try discriminate;
    reflexivity.
Qed.

Lemma first_writer_fetched (k : key) (tasks : list (string * result pyval)) :
  first_writer k (List.filter fetched tasks) = first_writer k tasks.
Proof.
  induction tasks as [|task rest IH]; simpl; [reflexivity|].
  destruct (fetched task) eqn:E; simpl; rewrite IH; [reflexivity|].
  unfold reached. rewrite (app_names_unfetched task E). reflexivity.
Qed.

Lemma reached_count (outcome : result pyval) :
  (length (reached outcome) <= length (app_names_of outcome))%nat.
Proof. apply hashed_prefix_length. Qed.

Lemma sum_reached_fetched (tasks : list (string * result pyval)) :
  (sum_list (map (fun task => length (reached task.2)) tasks)
   <= sum_list (map (fun task => length (app_names_of task.2))
                  (List.filter fetched tasks)))%nat.
Proof.
  induction tasks as [|task rest IH]; simpl; [lia|].
  pose proof (reached_count task.2) as H.
  destruct (fetched task) eqn:E; simpl; [lia|].
  rewrite (app_names_unfetched task E) in H. simpl in H. lia.
Qed.

Lemma get_all_cask_tokens_returns (w : world) :
  exists out tokens, get_all_cask_tokens w = (out, Ok tokens).
Proof.
  unfold get_all_cask_tokens. destruct (brew_search w) as [r|e]; simpl.
  - destruct (returncode r =? 0); simpl; eauto.
  - destruct e; simpl; eauto.
Qed.

(** [build_cask_database] returns: an empty dictionary when there is no
    token, and else the index of the completed tasks. *)
Lemma build_cask_database_returns (w : world) :
  exists out db,
    build_cask_database w = (out, Ok db)
    /\ (db = ∅
        \/ exists tokens, tokens <> []
             /\ (get_all_cask_tokens w).2 = Ok tokens
             /\ db = indexed (completed_tasks w tokens)).
Proof.
  unfold build_cask_database.
  destruct (get_all_cask_tokens_returns w) as (out & tokens & E).
  rewrite E. simpl. destruct tokens as [|token tokens]; simpl.
  - eauto.
  - destruct (index_loop _ _ _ _) as [st out'] eqn:El. simpl.
    eexists _, _. split; [reflexivity|]. right.
    exists (token :: tokens). split; [discriminate|]. split; [reflexivity|].
    unfold indexed.
    assert (forall t1 t2 i tasks acc,
              app_to_cask (index_loop t1 i tasks acc).1
              = app_to_cask (index_loop t2 i tasks acc).1) as Htotal.
    { intros t1 t2 i tasks acc. apply map_eq. intros k.
      rewrite !index_loop_lookup. reflexivity. }
    rewrite (Htotal _ (S (length tokens))), El. reflexivity.
Qed.

(** Claim C2 fails for the records [cask_a] and [cask_b], completed in
    this order: both declare [Foo.app], the first of them in its second
    artifact; the loop stops at the object that follows [A.app] in the
    first artifact of [cask_a], and the index maps [Foo.app] to
    [cask_b]. *)
Lemma second_writer_wins :
  declares (Ok cask_a) "Foo.app"
  /\ declares (Ok cask_b) "Foo.app"
  /\ indexed [("a", Ok cask_a); ("b", Ok cask_b)] !! KStr "A.app"
     = Some cask_a
  /\ indexed [("a", Ok cask_a); ("b", Ok cask_b)] !! KStr "Foo.app"
     = Some cask_b
  /\ indexed [("a", Ok cask_a); ("b", Ok cask_b)] !! KStr "Foo.app"
     <> Some cask_a.
Proof.
  assert (app_names_of (Ok cask_a)
          = [PStr "A.app"; PDict [("target", PStr "B.app")]; PStr "Foo.app"])
    as Ea by reflexivity.
  assert (app_names_of (Ok cask_b) = [PStr "Foo.app"]) as Eb by reflexivity.
  unfold declares. rewrite Ea, Eb, !indexed_lookup.
  split; [repeat constructor|]. split; [repeat constructor|].
  split; [reflexivity|]. split; [reflexivity|]. discriminate.
Qed.

(** C2 (claim C2, amended).  Each key of the index maps to the record
    of the first completed task whose handling reached that key: the
    names of the record were extracted without a fault and no name that
    cannot be hashed stands before it in the extracted list.  The value
    is this record as it was fetched, and a later task with the same key
    changes nothing.  When the extracted names of all tasks are strings,
    each name maps to the first record that declared it. *)
Theorem first_writer_wins (tasks : list (string * result pyval)) :
  (forall k c,
     indexed tasks !! k = Some c <->
     exists pre task post,
       tasks = (pre ++ task :: post)%list
       /\ task.2 = Ok c
       /\ k ∈ reached task.2
       /\ (forall t, t ∈ pre -> k ∉ reached t.2))
  /\ ((forall task, task ∈ tasks -> Forall is_str (app_names_of task.2)) ->
      forall s c,
        indexed tasks !! KStr s = Some c <->
        exists pre task post,
          tasks = (pre ++ task :: post)%list
          /\ task.2 = Ok c
          /\ declares task.2 s
          /\ (forall t, t ∈ pre -> ~ declares t.2 s)).
Proof.
  assert (forall k c,
     indexed tasks !! k = Some c <->
     exists pre task post,
       tasks = (pre ++ task :: post)%list
       /\ task.2 = Ok c
       /\ k ∈ reached task.2
       /\ (forall t, t ∈ pre -> k ∉ reached t.2)) as Hfirst.
  { intros k c. rewrite indexed_lookup, first_writer_split.
    split; intros (pre & task & post & Ht & Hc & Hk & Hpre);
      exists pre, task, post; repeat split; auto.
    - destruct (reached_record _ _ Hk) as (c' & _ & _ & E & _).
      rewrite E in Hc |- *. simpl in Hc. congruence.
    - rewrite Hc. reflexivity. }
  split; [exact Hfirst|].
  intros Hstr s c. rewrite Hfirst. unfold declares, reached.
  split; intros (pre & task & post & Ht & Hc & Hk & Hpre);
    exists pre, task, post; repeat split; auto.
  - apply hashed_prefix_all; [|assumption].
    apply Hstr. rewrite Ht. apply elem_of_app. right. apply list_elem_of_here.
  - intros t Hin Hd. apply (Hpre t Hin). apply hashed_prefix_all; [|assumption].
    apply Hstr. rewrite Ht. apply elem_of_app. left. assumption.
  - apply hashed_prefix_all; [|assumption].
    apply Hstr. rewrite Ht. apply elem_of_app. right. apply list_elem_of_here.
  - intros t Hin Hd. apply (Hpre t Hin). apply hashed_prefix_all; [|assumption].
    apply Hstr. rewrite Ht. apply elem_of_app. left. assumption.
Qed.

Lemma first_writer_wins_witness :
  indexed [("b", Ok cask_b); ("c", Ok cask_c)] !! KStr "Foo.app"
  = Some cask_b.
Proof.
  destruct (first_writer_wins [("b", Ok cask_b); ("c", Ok cask_c)])
    as [_ H].
  apply H.
  - intros task Hin.
    apply elem_of_cons in Hin as [->|Hin];
      [|apply list_elem_of_singleton in Hin as ->];
      repeat constructor; eexists; reflexivity.
  - exists [], ("b", Ok cask_b), [("c", Ok cask_c)].
    split; [reflexivity|]. split; [reflexivity|].
    split; [repeat constructor|].
    intros t Hin. apply elem_of_nil in Hin. destruct Hin.
Defined.

(** C6 (claim C6).  A task whose fetch raised or returned [None] leaves
    the index as it was, and the loop goes on with the next task: the
    index of all the tasks is the index of the tasks that fetched a
    record.  Every key of the index is the key of a name extracted from
    a record that was fetched, and the index has at most as many keys as
    the fetched records have app names.  [build_cask_database] returns
    for every state of the catalog. *)
Theorem index_tolerates_failures (tasks : list (string * result pyval)) :
  indexed tasks = indexed (List.filter fetched tasks)
  /\ (forall k, is_Some (indexed tasks !! k) ->
        exists token c names name,
          (token, Ok c) ∈ tasks /\ c <> PNone
          /\ extract_app_names_from_cask c = Ok names
          /\ name ∈ names /\ py_hash name = Ok k)
  /\ (size (indexed tasks)
      <= sum_list (map (fun task => length (app_names_of task.2))
                     (List.filter fetched tasks)))%nat
  /\ (forall w, exists out db, build_cask_database w = (out, Ok db)).
Proof.
  split.
  { apply map_eq. intros k. rewrite !indexed_lookup.
    symmetry. apply first_writer_fetched. }
  split.
  { intros k [c Hc]. rewrite indexed_lookup in Hc.
    apply first_writer_split in Hc
      as (pre & [token outcome] & post & -> & _ & Hk & _).
    destruct (reached_record _ _ Hk)
      as (c' & names & name & E & Ht & Hx & Hn & Hh).
    simpl in E. subst outcome. exists token, c', names, name.
    repeat split; auto.
    - apply elem_of_app. right. apply list_elem_of_here.
    - intros ->. discriminate. }
  split.
  { unfold indexed. etransitivity; [apply index_loop_size|]. simpl.
    rewrite map_size_empty. apply sum_reached_fetched. }
  intros w. destruct (build_cask_database_returns w) as (out & db & E & _).
  eauto.
Qed.

Lemma index_tolerates_failures_witness :
  exists token c names name,
    (token, Ok c)
      ∈ [("x", Raise TimeoutExpired); ("b", Ok cask_b); ("y", Ok PNone)]
    /\ c <> PNone
    /\ extract_app_names_from_cask c = Ok names
    /\ name ∈ names /\ py_hash name = Ok (KStr "Foo.app").
Proof.
  destruct (index_tolerates_failures
              [("x", Raise TimeoutExpired); ("b", Ok cask_b); ("y", Ok PNone)])
    as (_ & H & _).
  apply (H (KStr "Foo.app")). exists cask_b. reflexivity.
Defined.

(** The records of an index are true values. *)
Lemma indexed_truthy (tasks : list (string * result pyval)) (k : key)
  (c : pyval) :
  indexed tasks !! k = Some c -> truthy c = true.
Proof.
  intros H. rewrite indexed_lookup in H.
  apply first_writer_split in H as (pre & task & post & _ & Hc & Hk & _).
  destruct (reached_record _ _ Hk) as (c' & _ & _ & E & Ht & _).
  rewrite E in Hc. simpl in Hc. congruence.
Qed.

(** ** The matcher *)

Lemma py_get_dict (fields : list (string * pyval)) (k : string)
  (default : pyval) :
  py_get (PDict fields) k default =
    Ok (match dict_lookup k fields with
        | Some v => v
        | None => default
        end).
Proof. simpl. destruct (dict_lookup k fields); reflexivity. Qed.

Lemma compare_versions_sound (v1 v2 : pyval) :
  sound_version v1 -> sound_version v2 ->
  exists r, compare_versions v1 v2 = Ok r.
Proof.
  intros (s1 & -> & H1) (s2 & -> & H2).
  pose proof (compare_versions_str_raises s1 s2) as H.
  rewrite H1, H2, andb_false_r in H.
  destruct (compare_versions (PStr s1) (PStr s2)) as [r|e]; [eauto|].
  discriminate.
Qed.

(** An app without a true entry under its name gives no record. *)
Lemma match_app_row (cask_db : gmap key pyval)
  (fields : list (string * pyval)) (name : string) :
  dict_lookup "name" fields = Some (PStr name) ->
  match_app cask_db (PDict fields) =
    let cask_data :=
      match cask_db !! KStr name with
      | Some c => c
      | None => PNone
      end in
    if negb (truthy cask_data) then Ok None
    else
      let installed_version := version_field "bundle_short_version" fields in
      let* available_version := py_get cask_data "version" (PStr "") in
      let* update_available :=
        compare_versions installed_version available_version in
      let* bundle_id := py_get (PDict fields) "bundle_identifier" (PStr "") in
      let* cask_token := py_get cask_data "token" (PStr "") in
      let* installed := py_get cask_data "installed" PNone in
      let* outdated := py_get cask_data "outdated" (PBool false) in
      Ok (Some (PDict [("app_name", PStr name);
                       ("bundle_id", bundle_id);
                       ("installed_version", installed_version);
                       ("cask_token", cask_token);
                       ("cask_version", available_version);
                       ("update_available", update_available);
                       ("cask_installed", PBool (truthy installed));
                       ("outdated", outdated)])).
Proof.
  intros Hname. unfold match_app, db_get, version_field.
  cbn [py_item py_hash bind]. rewrite Hname. cbn [bind py_hash].
  destruct (cask_db !! KStr name) as [c|]; cbn [bind truthy negb];
    [|reflexivity].
  destruct (truthy c); cbn [negb]; [|reflexivity].
  rewrite (py_get_dict fields "bundle_short_version"). reflexivity.
Qed.

Lemma matched_row (cask_db : gmap key pyval)
  (fields : list (string * pyval)) (name : string) :
  dict_lookup "name" fields = Some (PStr name) ->
  matched cask_db (PDict fields) =
    match cask_db !! KStr name with
    | Some c => truthy c
    | None => false
    end.
Proof.
  intros Hname. unfold matched, entry_of. cbn [py_item]. rewrite Hname.
  reflexivity.
Qed.

Lemma match_app_skip (cask_db : gmap key pyval) (app : pyval) :
  installed_app app -> matched cask_db app = false ->
  match_app cask_db app = Ok None.
Proof.
  intros (fields & name & -> & Hname & _).
  rewrite (match_app_row cask_db fields name Hname),
    (matched_row cask_db fields name Hname).
  destruct (cask_db !! KStr name) as [c|]; [|reflexivity].
  intros Ht. cbn zeta. rewrite Ht. reflexivity.
Qed.

(** An app with a true entry under its name gives one record, which
    carries the name of the app. *)
Lemma match_app_record (cask_db : gmap key pyval) (app : pyval) :
  installed_app app -> catalog_index cask_db -> matched cask_db app = true ->
  exists record,
    match_app cask_db app = Ok (Some record)
    /\ py_get record "app_name" PNone = py_item app "name".
Proof.
  intros (fields & name & -> & Hname & Hv) Hdb.
  rewrite (match_app_row cask_db fields name Hname),
    (matched_row cask_db fields name Hname).
  destruct (cask_db !! KStr name) as [c|] eqn:E; [|discriminate].
  intros Ht. cbn zeta. rewrite Ht. cbn [negb].
  destruct (Hdb _ _ E Ht) as (cfields & -> & Hcv).
  rewrite (py_get_dict cfields "version"). cbn [bind].
  fold (version_field "version" cfields).
  destruct (compare_versions_sound _ _ Hv Hcv) as [r ->].
  rewrite !py_get_dict. cbn [bind]. eexists. split; [reflexivity|].
  cbn. rewrite Hname. reflexivity.
Qed.

Lemma match_loop_records (cask_db : gmap key pyval)
  (apps results : list pyval) :
  Forall installed_app apps -> catalog_index cask_db ->
  exists records,
    match_loop cask_db apps results = Ok (results ++ records)%list
    /\ Forall2
         (fun app record =>
            match_app cask_db app = Ok (Some record)
            /\ py_get record "app_name" PNone = py_item app "name")
         (List.filter (matched cask_db) apps) records.
Proof.
  intros Happs Hdb. revert results.
  induction Happs as [|app apps Happ _ IH]; intros results; simpl.
  - exists []. rewrite app_nil_r. split; [reflexivity | constructor].
  - destruct (matched cask_db app) eqn:Em.
    + destruct (match_app_record cask_db app Happ Hdb Em) as (r & Er & Hr).
      rewrite Er. simpl.
      destruct (IH (results ++ [r])%list) as (rs & Eloop & Hrs).
      exists (r :: rs). rewrite Eloop, <- app_assoc. simpl.
      split; [reflexivity|]. constructor; auto.
    + rewrite (match_app_skip cask_db app Happ Em). simpl. apply IH.
Qed.





Lemma get_cask_info_contract_witness :
  get_cask_info (foo_world "0.9") "foo" = Ok foo_cask.
Proof.
  destruct (get_cask_info_contract (foo_world "0.9") "foo")
    as (_ & _ & _ & _ & _ & H & _).
  apply (H (Completed 0 foo_info_text "") [("casks", PList [foo_cask])]
           foo_cask []); reflexivity.
Defined.

(** ** The program *)

Lemma printed_out_app (out1 out2 : list event) :
  printed_out (out1 ++ out2) = (printed_out out1 ++ printed_out out2)%list.
Proof. apply omap_app. Qed.

(** What [io_bind] returns and what it writes to the standard output. *)
Lemma io_bind_result {A B : Type} (m : io A) (k : A -> io B) :
  (io_bind m k).2 =
    match m.2 with
    | Ok a => (k a).2
    | Raise e => Raise e
    end.
Proof.
  destruct m as [out [a|e]]; simpl; [|reflexivity].
  destruct (k a). reflexivity.
Qed.

Lemma io_bind_printed {A B : Type} (m : io A) (k : A -> io B) :
  printed_out (io_bind m k).1 =
    (printed_out m.1 ++
     match m.2 with
     | Ok a => printed_out (k a).1
     | Raise _ => []
     end)%list.
Proof.
  destruct m as [out [a|e]]; simpl.
  - destruct (k a). simpl. apply printed_out_app.
  - rewrite app_nil_r. reflexivity.
Qed.

Lemma get_all_cask_tokens_quiet (w : world) :
  printed_out (get_all_cask_tokens w).1 = [].
Proof.
  unfold get_all_cask_tokens. destruct (brew_search w) as [r|e]; simpl.
  - destruct (returncode r =? 0); reflexivity.
  - destruct e; reflexivity.
Qed.

Lemma index_step_quiet (total i : nat) (task : string * result pyval)
  (acc : index_state * list event) :
  printed_out (index_step total i task acc).2 = printed_out acc.2.
Proof.
  unfold index_step. destruct acc as [st out], task as [token outcome].
  destruct (process_future outcome st) as [st' r].
  destruct (i mod 500 =? 0)%nat, r; cbn [snd];
    rewrite !printed_out_app; cbn [printed_out omap];
    rewrite ?app_nil_r; reflexivity.
Qed.

Lemma index_loop_quiet (total i : nat) (tasks : list (string * result pyval))
  (acc : index_state * list event) :
  printed_out (index_loop total i tasks acc).2 = printed_out acc.2.
Proof.
  revert i acc. induction tasks as [|task rest IH]; intros i acc.
  - reflexivity.
  - cbn [index_loop]. rewrite IH. apply index_step_quiet.
Qed.

Lemma build_cask_database_quiet (w : world) :
  printed_out (build_cask_database w).1 = [].
Proof.
  unfold build_cask_database.
  rewrite io_bind_printed. simpl. rewrite io_bind_printed.
  rewrite get_all_cask_tokens_quiet.
  destruct (get_all_cask_tokens_returns w) as (out & tokens & E).
  rewrite E. simpl. destruct tokens as [|token tokens]; [reflexivity|].
  pose proof (index_loop_quiet (length (token :: tokens)) 1
                (completed_tasks w (token :: tokens)) (empty_index, [])) as H.
  destruct (index_loop _ _ _ _) as [st out']. simpl in H |- *.
  rewrite printed_out_app, H. reflexivity.
Qed.

Lemma get_installed_apps_quiet (w : world) :
  printed_out (get_installed_apps w).1 = [].
Proof.
  unfold get_installed_apps. destruct (osquery w) as [r|e]; simpl.
  - destruct (returncode r =? 0); simpl; [|reflexivity].
    destruct (json_loads w (stdout r)) as [apps|e]; simpl; [reflexivity|].
    destruct e; reflexivity.
  - destruct e; reflexivity.
Qed.

Lemma run_main (w : world) :
  run w = ((main w).1, exit_status (main w).2).
Proof. unfold run. destruct (main w). reflexivity. Qed.

(** The status is 1, and nothing is written to the standard output,
    when the index is empty. *)
Lemma run_empty_index (w : world) (cask_db : gmap key pyval) :
  (build_cask_database w).2 = Ok cask_db -> db_truthy cask_db = false ->
  (run w).2 = 1 /\ printed_out (run w).1 = [].
Proof.
  intros Hb Hdb. rewrite run_main. cbn [fst snd]. unfold main.
  rewrite io_bind_result, io_bind_printed, Hb, Hdb.
  rewrite build_cask_database_quiet. split; reflexivity.
Qed.

(** The status is 1, and nothing is written to the standard output,
    when the inventory returns a false value (an empty list). *)
Lemma run_no_apps (w : world) (cask_db : gmap key pyval) (apps : pyval) :
  (build_cask_database w).2 = Ok cask_db -> db_truthy cask_db = true ->
  (get_installed_apps w).2 = Ok apps -> truthy apps = false ->
  (run w).2 = 1 /\ printed_out (run w).1 = [].
Proof.
  intros Hb Hdb Ha Happs. rewrite run_main. cbn [fst snd]. unfold main.
  rewrite io_bind_result, io_bind_printed, Hb, Hdb.
  rewrite build_cask_database_quiet. io_steps @io_bind_result @io_bind_printed.
  rewrite Ha, Happs, get_installed_apps_quiet. split; reflexivity.
Qed.

(** The status is 0, and the list of the records is the one document
    written to the standard output, when the index is not empty and the
    inventory returns rows the matcher accepts. *)
Lemma run_success (w : world) (cask_db : gmap key pyval) (rows : list pyval) :
  (build_cask_database w).2 = Ok cask_db -> db_truthy cask_db = true ->
  (get_installed_apps w).2 = Ok (PList rows) -> rows <> [] ->
  Forall installed_app rows -> catalog_index cask_db ->
  exists records,
    match_apps_to_casks (PList rows) cask_db = Ok records
    /\ (run w).2 = 0 /\ printed_out (run w).1 = [PList records].
Proof.
  intros Hb Hdb Ha Hrows Hok Hcat.
  destruct (match_loop_records cask_db rows [] Hok Hcat)
    as (records & Er & _).
  change (match_loop cask_db rows [])
    with (match_apps_to_casks (PList rows) cask_db) in Er.
  simpl in Er.
  exists records. split; [exact Er|].
  rewrite run_main. cbn [fst snd]. unfold main.
  rewrite io_bind_result, io_bind_printed, Hb, Hdb.
  rewrite build_cask_database_quiet. io_steps @io_bind_result @io_bind_printed.
  rewrite Ha, get_installed_apps_quiet.
  assert (truthy (PList rows) = true) as ->
    by (destruct rows; [destruct Hrows|]; reflexivity).
  io_steps @io_bind_result @io_bind_printed. rewrite Er.
  io_steps @io_bind_result @io_bind_printed.
  destruct (length (List.filter update_flag records) =? 0)%nat;
    split; reflexivity.
Qed.

(** C9 (claim C9).  The catalog has the cask [foo] of version [1.0]
    with the app [Foo.app], and the inventory has [Foo.app] with a
    version made of one space.  The index is not empty and neither is
    the list of the apps; the matcher raises [IndexError] out of the
    cleaning step of the comparator, [main] does not return, the status
    of the process is 1 and nothing is written to the standard
    output. *)
Theorem run_blank_version :
  (exists cask_db,
      (build_cask_database (foo_world " ")).2 = Ok cask_db
      /\ db_truthy cask_db = true)
  /\ (get_installed_apps (foo_world " ")).2 = Ok (foo_apps " ")
  /\ truthy (foo_apps " ") = true
  /\ (main (foo_world " ")).2 = Raise IndexError
  /\ (run (foo_world " ")).2 = 1
  /\ printed_out (run (foo_world " ")).1 = [].
Proof.
  split; [eexists; split; reflexivity|]. repeat split.
Qed.

(** * Further properties *)

(** ** The version comparator *)

Lemma part_eqb_sym (x y : part) : part_eqb x y = part_eqb y x.
Proof.
  destruct x as [a|a], y as [b|b]; simpl; try reflexivity.
  - apply Z.eqb_sym.
  - apply String.eqb_sym.
Qed.

Lemma part_lt_asym (x y : part) :
  part_lt x y = Ok true -> part_lt y x = Ok false.
Proof.
  destruct x as [a|a], y as [b|b]; simpl; try discriminate.
  - intros [= H]. apply Z.ltb_lt in H. f_equal. apply Z.ltb_ge. lia.
  - unfold String.ltb. rewrite (String.compare_antisym a b).
    destruct (String.compare b a); simpl; congruence.
Qed.

Lemma list_lt_asym (v w : list part) :
  length v = length w -> list_lt v w = Ok true -> list_lt w v = Ok false.
Proof.
  revert w. induction v as [|x v IH]; intros [|y w] Hlen; simpl;
    try discriminate.
  rewrite (part_eqb_sym y x). destruct (part_eqb x y).
  - apply IH. simpl in Hlen. lia.
  - apply part_lt_asym.
Qed.

(** What a call that returned [True] tells about its arguments. *)
Lemma compare_versions_true_inv (a b : string) :
  compare_versions (PStr a) (PStr b) = Ok (PBool true) ->
  a <> "" /\ b <> ""
  /\ exists ca cb,
       clean_version (PStr a) = Ok (PStr ca)
       /\ clean_version (PStr b) = Ok (PStr cb)
       /\ list_lt (padded ca cb) (padded cb ca) = Ok true.
Proof.
  intros H.
  destruct (String.eqb_spec a "") as [->|Ha]; [discriminate|].
  destruct (String.eqb_spec b "") as [->|Hb].
  { unfold compare_versions in H. simpl in H.
    apply String.eqb_neq in Ha. rewrite Ha in H. discriminate. }
  split; [assumption|]. split; [assumption|].
  rewrite compare_versions_str in H by assumption.
  destruct (clean_version (PStr a)) as [ca|e] eqn:Ea; [|discriminate].
  destruct (clean_version (PStr b)) as [cb|e] eqn:Eb; [|discriminate].
  destruct (clean_version_is_str _ _ Ea) as [ta ->].
  destruct (clean_version_is_str _ _ Eb) as [tb ->].
  simpl in H. rewrite compare_cleaned_str in H.
  exists ta, tb. repeat split.
  destruct (list_lt _ _) as [[|]|e]; congruence.
Qed.

Lemma compare_versions_cleaned (a b ca cb : string) :
  a <> "" -> b <> "" ->
  clean_version (PStr a) = Ok (PStr ca) ->
  clean_version (PStr b) = Ok (PStr cb) ->
  compare_versions (PStr a) (PStr b) =
    match list_lt (padded ca cb) (padded cb ca) with
    | Ok r => Ok (PBool r)
    | Raise _ => Ok PNone
    end.
Proof.
  intros Ha Hb Ea Eb. rewrite compare_versions_str by assumption.
  rewrite Ea, Eb. simpl. apply compare_cleaned_str.
Qed.

(** X1.  The comparator never says of two versions that each is newer
    than the other: when [compare(a, b)] is [True], [compare(b, a)] is
    [False]. *)
Theorem compare_versions_asymmetric (a b : string) :
  compare_versions (PStr a) (PStr b) = Ok (PBool true) ->
  compare_versions (PStr b) (PStr a) = Ok (PBool false).
Proof.
  intros H.
  destruct (compare_versions_true_inv a b H)
    as (Ha & Hb & ca & cb & Ea & Eb & Hlt).
  rewrite (compare_versions_cleaned b a cb ca) by assumption.
  rewrite (list_lt_asym _ _ (padded_length ca cb) Hlt). reflexivity.
Qed.

Lemma compare_versions_asymmetric_witness :
  compare_versions (PStr "1.10 (b2)") (PStr "1.9") = Ok (PBool false).
Proof.
  apply (compare_versions_asymmetric "1.9" "1.10 (b2)"). reflexivity.
Defined.

Lemma padded_nth (a b : string) (i : nat) :
  nth i (padded a b) (Num 0) = component a i.
Proof.
  unfold padded, pad_to, component.
  destruct (Nat.lt_ge_cases i (length (version_parts a))) as [H|H].
  - apply app_nth1. assumption.
  - rewrite app_nth2 by assumption. rewrite nth_repeat.
    symmetry. apply nth_overflow. assumption.
Qed.

Lemma lex_less_nth (v w : list part) :
  length v = length w ->
  lex_less v w <->
  exists i,
    (forall j, (j < i)%nat -> nth j v (Num 0) = nth j w (Num 0))
    /\ part_less (nth i v (Num 0)) (nth i w (Num 0)).
Proof.
  revert w. induction v as [|x v IH]; intros [|y w] Hlen; try discriminate.
  - split; [inversion 1|]. intros (i & _ & H).
    destruct i; simpl in H; destruct (part_less_irrefl _ H).
  - simpl in Hlen. split.
    + inversion 1; subst.
      * exists 0%nat. split; [lia | assumption].
      * apply IH in H1 as (i & Hpre & Hi); [|lia].
        exists (S i). split; [|assumption].
        intros [|j] Hj; [reflexivity|]. apply Hpre. lia.
    + intros ([|i] & Hpre & Hi); simpl in Hi.
      * apply lex_here. assumption.
      * assert (x = y) as -> by apply (Hpre 0%nat ltac:(lia)).
        apply lex_next. apply IH; [lia|]. exists i. split; [|assumption].
        intros j Hj. apply (Hpre (S j)). lia.
Qed.

Lemma lex_less_nth_components (a b : string) :
  lex_less (padded a b) (padded b a) <->
  exists i,
    (forall j, (j < i)%nat -> component a j = component b j)
    /\ part_less (component a i) (component b i).
Proof.
  rewrite (lex_less_nth _ _ (padded_length a b)).
  split; intros (i & Hpre & Hi); exists i; split.
  - intros j Hj. rewrite <- (padded_nth a b), <- (padded_nth b a).
    apply Hpre. assumption.
  - rewrite <- (padded_nth a b), <- (padded_nth b a). assumption.
  - intros j Hj. rewrite (padded_nth a b), (padded_nth b a).
    apply Hpre. assumption.
  - rewrite (padded_nth a b), (padded_nth b a). assumption.
Qed.

(** [compare(a, b)] is [True] exactly when the cleaned [a] is below the
    cleaned [b]. *)
Lemma compare_versions_below (a b ca cb : string) :
  a <> "" -> b <> "" ->
  clean_version (PStr a) = Ok (PStr ca) ->
  clean_version (PStr b) = Ok (PStr cb) ->
  compare_versions (PStr a) (PStr b) = Ok (PBool true) <-> below ca cb.
Proof.
  intros Ha Hb Ea Eb.
  rewrite (compare_versions_cleaned a b ca cb) by assumption.
  unfold below.
  rewrite <- (lex_less_nth_components ca cb).
  rewrite <- list_lt_true.
  destruct (list_lt _ _) as [[|]|e]; split; congruence.
Qed.

Lemma ascii_compare_lt (c d : ascii) :
  Ascii.compare c d = Lt <-> (N_of_ascii c < N_of_ascii d)%N.
Proof. unfold Ascii.compare. apply N.compare_lt_iff. Qed.

Lemma string_compare_trans (a b c : string) :
  String.compare a b = Lt -> String.compare b c = Lt ->
  String.compare a c = Lt.
Proof.
  revert b c. induction a as [|x a IH]; intros [|y b] [|z c]; simpl;
    try discriminate; try reflexivity.
  destruct (Ascii.compare x y) eqn:Exy; try discriminate.
  - apply Ascii.compare_eq_iff in Exy. subst y.
    destruct (Ascii.compare x z); try discriminate; [|reflexivity].
    apply IH.
  - intros _. destruct (Ascii.compare y z) eqn:Eyz; try discriminate.
    + apply Ascii.compare_eq_iff in Eyz. subst z. rewrite Exy. reflexivity.
    + intros _. apply (proj1 (ascii_compare_lt _ _)) in Exy.
      apply (proj1 (ascii_compare_lt _ _)) in Eyz.
      assert (Ascii.compare x z = Lt) as ->
        by (apply ascii_compare_lt; lia).
      reflexivity.
Qed.

Lemma part_less_trans (x y z : part) :
  part_less x y -> part_less y z -> part_less x z.
Proof.
  intros Hxy Hyz. destruct Hxy as [a b H|a b H]; inversion Hyz; subst.
  - constructor. lia.
  - constructor. eapply string_compare_trans; eassumption.
Qed.

Lemma below_trans (s t u : string) : below s t -> below t u -> below s u.
Proof.
  intros (i & Hi & Hsi) (k & Hk & Hsk).
  destruct (Nat.lt_trichotomy i k) as [H|[H|H]].
  - exists i. split.
    + intros j Hj. rewrite (Hi j Hj). apply Hk. lia.
    + rewrite <- (Hk i H). assumption.
  - subst k. exists i. split.
    + intros j Hj. rewrite (Hi j Hj). apply Hk. assumption.
    + eapply part_less_trans; eassumption.
  - exists k. split.
    + intros j Hj. rewrite (Hi j ltac:(lia)). apply Hk. assumption.
    + rewrite (Hi k H). assumption.
Qed.

(** X2.  The answer [True] of the comparator is transitive: when
    [compare(a, b)] and [compare(b, c)] are [True], so is
    [compare(a, c)]. *)
Theorem compare_versions_transitive (a b c : string) :
  compare_versions (PStr a) (PStr b) = Ok (PBool true) ->
  compare_versions (PStr b) (PStr c) = Ok (PBool true) ->
  compare_versions (PStr a) (PStr c) = Ok (PBool true).
Proof.
  intros Hab Hbc.
  destruct (compare_versions_true_inv a b Hab)
    as (Ha & Hb & ca & cb & Ea & Eb & _).
  destruct (compare_versions_true_inv b c Hbc)
    as (_ & Hc & cb' & cc & Eb' & Ec & _).
  apply (compare_versions_below a b ca cb Ha Hb Ea Eb) in Hab.
  assert (cb' = cb) as -> by congruence.
  apply (compare_versions_below b c cb cc Hb Hc Eb Ec) in Hbc.
  apply (compare_versions_below a c ca cc Ha Hc Ea Ec).
  eapply below_trans; eassumption.
Qed.

Lemma compare_versions_transitive_witness :
  compare_versions (PStr "1.9") (PStr "2.0.1 beta") = Ok (PBool true).
Proof.
  apply (compare_versions_transitive "1.9" "1.10" "2.0.1 beta");
    reflexivity.
Defined.

(** The comparison of two lists raises only at a first pair of unequal
    items of which one is an integer and the other a string. *)
Lemma list_lt_raise_inv (v w : list part) (e : exn) :
  list_lt v w = Raise e ->
  exists i x y,
    (forall j, (j < i)%nat -> v !! j = w !! j)
    /\ v !! i = Some x /\ w !! i = Some y /\ mixed x y.
Proof.
  revert w. induction v as [|x v IH]; intros [|y w]; simpl; try discriminate.
  destruct (part_eqb x y) eqn:E.
  - apply part_eqb_eq in E. subst y. intros H.
    destruct (IH w H) as (i & x' & y' & Hpre & Hx & Hy & Hm).
    exists (S i), x', y'. repeat split; auto.
    intros [|j] Hj; [reflexivity|]. simpl. apply Hpre. lia.
  - intros H. exists 0%nat, x, y. repeat split; [lia|].
    destruct x, y; simpl in *; try discriminate; exact I.
Qed.

(** X3.  On two versions that are not empty and that the cleaning step
    accepts, the comparator returns [None] only when the padded
    sequences first differ at a position that holds an integer in one
    and a string in the other.  (The converse is C10.) *)
Theorem compare_versions_none_mixed (a b ca cb : string) :
  a <> "" -> b <> "" ->
  clean_version (PStr a) = Ok (PStr ca) ->
  clean_version (PStr b) = Ok (PStr cb) ->
  compare_versions (PStr a) (PStr b) = Ok PNone ->
  exists i x y,
    (forall j, (j < i)%nat -> padded ca cb !! j = padded cb ca !! j)
    /\ padded ca cb !! i = Some x
    /\ padded cb ca !! i = Some y
    /\ mixed x y.
Proof.
  intros Ha Hb Ea Eb.
  rewrite (compare_versions_cleaned a b ca cb) by assumption.
  destruct (list_lt _ _) as [r|e] eqn:E; [discriminate|].
  intros _. apply (list_lt_raise_inv _ _ e E).
Qed.

Lemma compare_versions_none_mixed_witness :
  exists i x y,
    (forall j, (j < i)%nat ->
       padded "2.1rc" "2.1" !! j = padded "2.1" "2.1rc" !! j)
    /\ padded "2.1rc" "2.1" !! i = Some x
    /\ padded "2.1" "2.1rc" !! i = Some y
    /\ mixed x y.
Proof.
  apply (compare_versions_none_mixed "2.1rc" "2.1 (77)" "2.1rc" "2.1");
    try discriminate; reflexivity.
Defined.

Lemma list_lt_numeric (v w : list part) :
  Forall is_num v -> Forall is_num w -> exists r, list_lt v w = Ok r.
Proof.
  intros Hv. revert w. induction Hv as [|x v [n ->] _ IH]; intros w Hw.
  - destruct w; simpl; eauto.
  - destruct Hw as [|y w [m ->] Hw]; simpl; [eauto|].
    destruct (n =? m); [apply IH; assumption | eauto].
Qed.

Lemma padded_numeric (a b : string) : numeric a -> Forall is_num (padded a b).
Proof.
  intros H. unfold padded, pad_to. apply Forall_app. split; [exact H|].
  apply Forall_forall. intros x Hx.
  apply list_elem_of_In, repeat_spec in Hx. subst x. exists 0. reflexivity.
Qed.

(** X4.  Two versions all of whose dot-separated parts read as integers
    are always comparable: the comparator returns [True] or [False],
    never [None]. *)
Theorem compare_versions_numeric (a b ca cb : string) :
  a <> "" -> b <> "" ->
  clean_version (PStr a) = Ok (PStr ca) ->
  clean_version (PStr b) = Ok (PStr cb) ->
  numeric ca -> numeric cb ->
  exists r, compare_versions (PStr a) (PStr b) = Ok (PBool r).
Proof.
  intros Ha Hb Ea Eb Na Nb.
  rewrite (compare_versions_cleaned a b ca cb) by assumption.
  destruct (list_lt_numeric (padded ca cb) (padded cb ca)) as [r ->];
    [apply padded_numeric; assumption .. |].
  eauto.
Qed.

Lemma compare_versions_numeric_witness :
  exists r,
    compare_versions (PStr "10.4.1 (881)") (PStr "10.12") = Ok (PBool r).
Proof.
  apply (compare_versions_numeric "10.4.1 (881)" "10.12" "10.4.1" "10.12");
    try discriminate; try reflexivity;
    repeat constructor; eexists; reflexivity.
Defined.

Lemma split_on_not_nil (sep : ascii) (s : string) : split_on sep s <> [].
Proof.
  destruct s as [|c s]; simpl; [discriminate|].
  destruct (Ascii.eqb c sep); [discriminate|].
  destruct (split_on sep s); discriminate.
Qed.

(** Splitting goes through a separator. *)
Lemma split_on_app (sep : ascii) (s t : string) :
  split_on sep (s ++ String sep t)%string
  = (split_on sep s ++ split_on sep t)%list.
Proof.
  induction s as [|c s IH].
  - change ("" ++ String sep t)%string with (String sep t). simpl.
    rewrite Ascii.eqb_refl. reflexivity.
  - rewrite append_cons. simpl. rewrite IH.
    destruct (Ascii.eqb c sep); [reflexivity|].
    destruct (split_on sep s) as [|w ws] eqn:E; [|reflexivity].
    destruct (split_on_not_nil sep s E).
Qed.

Lemma has_char_app (c : ascii) (s t : string) :
  has_char c (s ++ t)%string = has_char c s || has_char c t.
Proof.
  induction s as [|d s IH]; [reflexivity|].
  rewrite append_cons. simpl. rewrite IH. apply orb_assoc.
Qed.

Lemma list_lt_snoc (v w : list part) (x : part) :
  length v = length w ->
  list_lt (v ++ [x]) (w ++ [x]) = list_lt v w.
Proof.
  revert w. induction v as [|a v IH]; intros [|b w] Hlen; try discriminate.
  - simpl. rewrite part_eqb_refl. reflexivity.
  - simpl. destruct (part_eqb a b); [|reflexivity].
    apply IH. simpl in Hlen. lia.
Qed.

Lemma pad_to_succ (n : nat) (v : list part) :
  (length v <= n)%nat -> pad_to (S n) v = (pad_to n v ++ [Num 0])%list.
Proof.
  intros H. unfold pad_to.
  replace (S n - length v)%nat with (S (n - length v)) by lia.
  cbn [repeat]. rewrite repeat_cons, app_assoc. reflexivity.
Qed.

Lemma pad_to_length (n : nat) (v : list part) :
  (length v <= n)%nat -> length (pad_to n v) = n.
Proof.
  intros H. unfold pad_to. rewrite length_app, repeat_length. lia.
Qed.

(** Zeros added to both sequences beyond the longer change nothing. *)
Lemma list_lt_pad_more (v w : list part) (k : nat) :
  list_lt (pad_to (Nat.max (length v) (length w) + k) v)
    (pad_to (Nat.max (length v) (length w) + k) w)
  = list_lt (pad_to (Nat.max (length v) (length w)) v)
      (pad_to (Nat.max (length v) (length w)) w).
Proof.
  induction k as [|k IH]; [rewrite Nat.add_0_r; reflexivity|].
  rewrite Nat.add_succ_r, !pad_to_succ by lia.
  rewrite list_lt_snoc; [exact IH|].
  rewrite !pad_to_length by lia. reflexivity.
Qed.

Lemma pad_to_snoc_zero (n : nat) (v : list part) :
  (S (length v) <= n)%nat -> pad_to n (v ++ [Num 0]) = pad_to n v.
Proof.
  intros H. unfold pad_to. rewrite length_app. simpl.
  replace (n - length v)%nat with (S (n - (length v + 1))) by lia.
  rewrite <- app_assoc. reflexivity.
Qed.

(** One more zero at the end of either sequence changes nothing. *)
Lemma list_lt_trailing_zero (v w : list part) :
  list_lt
    (pad_to (Nat.max (length (v ++ [Num 0])) (length w)) (v ++ [Num 0]))
    (pad_to (Nat.max (length (v ++ [Num 0])) (length w)) w)
  = list_lt (pad_to (Nat.max (length v) (length w)) v)
      (pad_to (Nat.max (length v) (length w)) w)
  /\ list_lt
       (pad_to (Nat.max (length (v ++ [Num 0])) (length w)) w)
       (pad_to (Nat.max (length (v ++ [Num 0])) (length w)) (v ++ [Num 0]))
     = list_lt (pad_to (Nat.max (length v) (length w)) w)
         (pad_to (Nat.max (length v) (length w)) v).
Proof.
  rewrite length_app. simpl.
  destruct (Nat.le_gt_cases (S (length v)) (length w)) as [H|H].
  - replace (Nat.max (length v + 1) (length w)) with (length w) by lia.
    replace (Nat.max (length v) (length w)) with (length w) by lia.
    rewrite pad_to_snoc_zero by lia. split; reflexivity.
  - replace (Nat.max (length v + 1) (length w))
      with (Nat.max (length v) (length w) + 1)%nat by lia.
    rewrite !pad_to_snoc_zero by lia.
    split; [apply list_lt_pad_more|].
    rewrite (Nat.max_comm (length v) (length w)). apply list_lt_pad_more.
Qed.

Lemma version_parts_dot_zero (s : string) :
  version_parts (s ++ ".0") = (version_parts s ++ [Num 0])%list.
Proof.
  unfold version_parts.
  change (s ++ ".0")%string with (s ++ String "."%char "0")%string.
  rewrite split_on_app, map_app. reflexivity.
Qed.

Lemma compare_cleaned_dot_zero (s : string) (c : pyval) :
  compare_cleaned (PStr (s ++ ".0")) c = compare_cleaned (PStr s) c
  /\ compare_cleaned c (PStr (s ++ ".0")) = compare_cleaned c (PStr s).
Proof.
  destruct c as [| | |t| |]; try (split; reflexivity).
  rewrite !compare_cleaned_str. unfold padded.
  rewrite !version_parts_dot_zero.
  rewrite (Nat.max_comm (length (version_parts t))
             (length (version_parts s ++ [Num 0]))).
  rewrite (Nat.max_comm (length (version_parts t))
             (length (version_parts s))).
  destruct (list_lt_trailing_zero (version_parts s) (version_parts t))
    as [-> ->].
  split; reflexivity.
Qed.

(** X5.  A last part [.0] does not count: for a version [a] that is not
    empty and holds no space, [a] and [a.0] compare alike with every
    string, on either side. *)
Theorem compare_versions_dot_zero (a b : string) :
  a <> "" -> has_char space a = false ->
  compare_versions (PStr (a ++ ".0")) (PStr b)
  = compare_versions (PStr a) (PStr b)
  /\ compare_versions (PStr b) (PStr (a ++ ".0"))
     = compare_versions (PStr b) (PStr a).
Proof.
  intros Ha Hs.
  assert (a ++ ".0" <> "")%string as Ha' by (destruct a; discriminate).
  assert (has_char space (a ++ ".0") = false) as Hs'
    by (rewrite has_char_app, Hs; reflexivity).
  destruct (String.eqb_spec b "") as [->|Hb].
  { unfold compare_versions. simpl.
    apply String.eqb_neq in Ha, Ha'. rewrite Ha, Ha'. split; reflexivity. }
  rewrite !compare_versions_str by assumption.
  rewrite (clean_version_plain a Hs), (clean_version_plain _ Hs'). simpl.
  destruct (clean_version (PStr b)) as [cb|e]; simpl; [|split; reflexivity].
  apply compare_cleaned_dot_zero.
Qed.

Lemma compare_versions_dot_zero_witness :
  compare_versions (PStr "4.2.0") (PStr "4.2.1 beta")
  = compare_versions (PStr "4.2") (PStr "4.2.1 beta").
Proof.
  apply (compare_versions_dot_zero "4.2" "4.2.1 beta");
    [discriminate | reflexivity].
Defined.

Lemma before_whitespace_no_space (s : string) :
  has_char space (before_whitespace s) = false.
Proof.
  induction s as [|c s IH]; cbn [before_whitespace]; [reflexivity|].
  destruct (isspace c) eqn:E; cbn [has_char]; [reflexivity|].
  rewrite IH, orb_false_r. apply Ascii.eqb_neq. intros <-.
  vm_compute in E. discriminate.
Qed.

(** X6.  What the cleaning step returns for a string is a string that
    holds no space and that the cleaning step leaves as it is; it is
    empty only when the string was. *)
Theorem clean_version_idempotent (s : string) (c : pyval) :
  clean_version (PStr s) = Ok c ->
  exists t,
    c = PStr t
    /\ has_char space t = false
    /\ clean_version c = Ok c
    /\ (s <> "" -> t <> "").
Proof.
  intros H. destruct (has_char space s) eqn:Hs.
  - destruct (blank s) eqn:Hb.
    + rewrite (clean_version_blank s Hs Hb) in H. discriminate.
    + rewrite (clean_version_word s Hs Hb) in H. injection H as <-.
      exists (before_whitespace (lstrip s)).
      split; [reflexivity|].
      split; [apply before_whitespace_no_space|].
      split; [apply clean_version_plain, before_whitespace_no_space|].
      intros _. destruct (lstrip_first s) as [E|(x & r & E & Hx)].
      * apply blank_lstrip in E. congruence.
      * rewrite E. simpl. rewrite Hx. discriminate.
  - rewrite (clean_version_plain s Hs) in H. injection H as <-.
    exists s. repeat split; auto. apply clean_version_plain. assumption.
Qed.

Lemma clean_version_idempotent_witness :
  exists t,
    PStr "7.1" = PStr t
    /\ has_char space t = false
    /\ clean_version (PStr "7.1") = Ok (PStr "7.1")
    /\ ("  7.1 (build 9)" <> "" -> t <> "").
Proof.
  apply (clean_version_idempotent "  7.1 (build 9)" (PStr "7.1")).
  reflexivity.
Defined.

(** ** The list of the tokens *)

Lemma lstrip_list (s : string) :
  list_ascii_of_string (lstrip s) = drop_space (list_ascii_of_string s).
Proof.
  induction s as [|c s IH]; simpl; [reflexivity|].
  destruct (isspace c); [exact IH | reflexivity].
Qed.

Lemma py_strip_list (s : string) :
  list_ascii_of_string (py_strip s)
  = rev (drop_space (rev (drop_space (list_ascii_of_string s)))).
Proof.
  unfold py_strip, string_rev.
  rewrite list_ascii_of_string_of_list_ascii, lstrip_list.
  rewrite list_ascii_of_string_of_list_ascii, lstrip_list. reflexivity.
Qed.

Lemma drop_space_clean (l : list ascii) : starts_clean (drop_space l).
Proof.
  induction l as [|c l IH]; simpl; [exact I|].
  destruct (isspace c) eqn:E; [exact IH | exact E].
Qed.

Lemma drop_space_fixed (l : list ascii) : starts_clean l -> drop_space l = l.
Proof. destruct l as [|c l]; simpl; [reflexivity|]. intros ->. reflexivity. Qed.

Lemma drop_space_suffix (l : list ascii) :
  exists pre, l = (pre ++ drop_space l)%list.
Proof.
  induction l as [|c l [pre IH]]; simpl; [exists []; reflexivity|].
  destruct (isspace c).
  - exists (c :: pre). simpl. congruence.
  - exists []. reflexivity.
Qed.

Lemma starts_clean_prefix (l r : list ascii) :
  starts_clean (l ++ r) -> starts_clean l.
Proof. destruct l; simpl; auto. Qed.

(** Stripping what was stripped changes nothing. *)
Lemma py_strip_idempotent (s : string) : py_strip (py_strip s) = py_strip s.
Proof.
  rewrite <- (string_of_list_ascii_of_string (py_strip (py_strip s))).
  rewrite <- (string_of_list_ascii_of_string (py_strip s)) at 2.
  f_equal. rewrite (py_strip_list (py_strip s)), (py_strip_list s).
  set (u := drop_space (list_ascii_of_string s)).
  set (r := drop_space (rev u)).
  assert (starts_clean (rev r)) as Hr.
  { destruct (drop_space_suffix (rev u)) as [pre Hpre]. fold r in Hpre.
    apply (f_equal (@rev ascii)) in Hpre.
    rewrite rev_involutive, rev_app_distr in Hpre.
    apply (starts_clean_prefix (rev r) (rev pre)). rewrite <- Hpre.
    apply drop_space_clean. }
  rewrite (drop_space_fixed (rev r) Hr), rev_involutive.
  rewrite (drop_space_fixed r (drop_space_clean (rev u))). reflexivity.
Qed.

Lemma has_char_In (c : ascii) (s : string) :
  has_char c s = true <-> In c (list_ascii_of_string s).
Proof.
  induction s as [|d s IH]; simpl; [split; [discriminate | tauto]|].
  rewrite orb_true_iff, IH, Ascii.eqb_eq. split; intros [H|H]; auto.
Qed.

Lemma drop_space_In (c : ascii) (l : list ascii) :
  In c (drop_space l) -> In c l.
Proof.
  destruct (drop_space_suffix l) as [pre Hpre]. intros H.
  rewrite Hpre. apply in_or_app. right. assumption.
Qed.

(** Stripping adds no character. *)
Lemma py_strip_has_char (c : ascii) (s : string) :
  has_char c s = false -> has_char c (py_strip s) = false.
Proof.
  intros H. destruct (has_char c (py_strip s)) eqn:E; [|reflexivity].
  apply has_char_In in E. rewrite py_strip_list in E.
  apply in_rev, drop_space_In, in_rev, drop_space_In, has_char_In in E.
  congruence.
Qed.

(** A part between two separators holds no separator. *)
Lemma split_on_has_char (sep : ascii) (s p : string) :
  In p (split_on sep s) -> has_char sep p = false.
Proof.
  revert p. induction s as [|c s IH]; intros p; simpl.
  - intros [<-|[]]. reflexivity.
  - destruct (Ascii.eqb c sep) eqn:E.
    + intros [<-|H]; [reflexivity | apply IH; assumption].
    + destruct (split_on sep s) as [|w ws] eqn:Es.
      * destruct (split_on_not_nil sep s Es).
      * intros [<-|H].
        -- simpl. rewrite Ascii.eqb_sym, E. apply IH. left. reflexivity.
        -- apply IH. right. assumption.
Qed.

(** X7.  Every token [get_all_cask_tokens] returns is a line of the
    output of the command without the white space around it: it is not
    empty, holds no newline, and does not start or end with white
    space. *)
Theorem get_all_cask_tokens_stripped (w : world) (tokens : list string)
  (token : string) :
  (get_all_cask_tokens w).2 = Ok tokens -> token ∈ tokens ->
  token <> ""
  /\ has_char newline token = false
  /\ py_strip token = token.
Proof.
  unfold get_all_cask_tokens.
  destruct (brew_search w) as [r|e]; simpl.
  - destruct (returncode r =? 0); simpl.
    + intros [= <-] Hin. apply list_elem_of_In, in_map_iff in Hin
        as (line & <- & Hline).
      apply filter_In in Hline as [Hline Hne].
      split; [|split].
      * simpl in Hne. apply negb_true_iff, String.eqb_neq in Hne. assumption.
      * apply py_strip_has_char. eapply split_on_has_char. eassumption.
      * apply py_strip_idempotent.
    + intros [= <-] Hin. apply elem_of_nil in Hin. destruct Hin.
  - destruct e; simpl; intros [= <-] Hin; apply elem_of_nil in Hin;
      destruct Hin.
Qed.

Lemma get_all_cask_tokens_stripped_witness :
  "foo" <> ""
  /\ has_char newline "foo" = false
  /\ py_strip "foo" = "foo".
Proof.
  apply (get_all_cask_tokens_stripped (foo_world "1.0") ["foo"] "foo").
  - reflexivity.
  - apply list_elem_of_here.
Defined.

Lemma build_cask_database_no_tokens (w : world) :
  (get_all_cask_tokens w).2 = Ok [] ->
  (build_cask_database w).2 = Ok ∅.
Proof.
  intros H. unfold build_cask_database.
  rewrite !io_bind_result. cbn [print_err snd]. rewrite H. reflexivity.
Qed.

Lemma get_all_cask_tokens_failed (w : world) :
  (exists e, brew_search w = Raise e)
  \/ (exists r, brew_search w = Ok r /\ returncode r <> 0) ->
  (get_all_cask_tokens w).2 = Ok [].
Proof.
  unfold get_all_cask_tokens. intros [[e ->]|(r & -> & Hrc)]; simpl.
  - destruct e; reflexivity.
  - apply Z.eqb_neq in Hrc. rewrite Hrc. reflexivity.
Qed.

(** X8.  When the command that lists the casks raises (the time is up,
    the program is missing, any other fault) or ends with a status other
    than 0, [get_all_cask_tokens] returns the empty list,
    [build_cask_database] returns an empty index, and the program ends
    with status 1 and nothing on the standard output. *)
Theorem run_search_failed (w : world) :
  (exists e, brew_search w = Raise e)
  \/ (exists r, brew_search w = Ok r /\ returncode r <> 0) ->
  (get_all_cask_tokens w).2 = Ok []
  /\ (build_cask_database w).2 = Ok ∅
  /\ (run w).2 = 1
  /\ printed_out (run w).1 = [].
Proof.
  intros H. pose proof (get_all_cask_tokens_failed w H) as Ht.
  pose proof (build_cask_database_no_tokens w Ht) as Hb.
  split; [exact Ht|]. split; [exact Hb|].
  apply (run_empty_index w ∅ Hb). reflexivity.
Qed.

Lemma run_search_failed_witness :
  (run {| json_loads := fun _ => Raise JSONDecodeError;
          brew_search := Raise TimeoutExpired;
          brew_info := fun _ => Raise TimeoutExpired;
          osquery := Raise FileNotFoundError;
          as_completed := fun tokens => tokens |}).2 = 1.
Proof.
  eapply run_search_failed. left. eexists. reflexivity.
Defined.

(** ** The names of a record *)

Lemma extend_app_names_lists (acc artifacts : list pyval) :
  Forall app_is_list artifacts ->
  extend_app_names acc artifacts
  = Ok (acc ++ concat (map artifact_apps artifacts))%list.
Proof.
  intros H. revert acc. induction H as [|artifact rest Ha _ IH]; intros acc.
  - simpl. rewrite app_nil_r. reflexivity.
  - cbn [extend_app_names map concat].
    destruct artifact as [| | | | |d];
      try (rewrite IH; reflexivity).
    unfold app_is_list in Ha. unfold artifact_apps at 1.
    destruct (dict_lookup "app" d) as [v|].
    + destruct Ha as [names ->]. cbn [py_iter bind].
      rewrite IH, app_assoc. reflexivity.
    + rewrite IH. reflexivity.
Qed.

(** X9.  [extract_app_names_from_cask] returns no name for a record
    without ['artifacts'].  For a record whose ['artifacts'] is a list,
    where each ['app'] is a list, it returns the items of the ['app']
    lists of the artifacts that are objects, in the order of the
    artifacts; the other artifacts give nothing. *)
Theorem extract_app_names_concat (fields : list (string * pyval)) :
  (dict_lookup "artifacts" fields = None ->
   extract_app_names_from_cask (PDict fields) = Ok [])
  /\ (forall artifacts,
        dict_lookup "artifacts" fields = Some (PList artifacts) ->
        Forall app_is_list artifacts ->
        extract_app_names_from_cask (PDict fields)
        = Ok (concat (map artifact_apps artifacts))).
Proof.
  split.
  - intros H. unfold extract_app_names_from_cask. simpl. rewrite H.
    reflexivity.
  - intros artifacts H Ha. unfold extract_app_names_from_cask. simpl.
    rewrite H. simpl. apply (extend_app_names_lists [] artifacts Ha).
Qed.

Lemma extract_app_names_concat_witness :
  extract_app_names_from_cask
    (PDict [("token", PStr "x");
            ("artifacts",
             PList [PDict [("app", PList [PStr "X.app"; PStr "Y.app"])];
                    PDict [("zap", PList [])];
                    PStr "note";
                    PDict [("app", PList [PStr "Z.app"])]])])
  = Ok [PStr "X.app"; PStr "Y.app"; PStr "Z.app"].
Proof.
  destruct (extract_app_names_concat
              [("token", PStr "x");
               ("artifacts",
                PList [PDict [("app", PList [PStr "X.app"; PStr "Y.app"])];
                       PDict [("zap", PList [])];
                       PStr "note";
                       PDict [("app", PList [PStr "Z.app"])]])])
    as [_ H].
  apply (H _ eq_refl).
  repeat constructor; simpl; eauto.
Defined.

(** ** The index *)

(** X10.  Every entry of the index is sound: the record under a key is
    a true value that one of the tasks fetched, and the key is the key
    of one of the names extracted from this very record. *)
Theorem indexed_sound (tasks : list (string * result pyval)) (k : key)
  (c : pyval) :
  indexed tasks !! k = Some c ->
  truthy c = true
  /\ exists token names name,
       (token, Ok c) ∈ tasks
       /\ extract_app_names_from_cask c = Ok names
       /\ name ∈ names
       /\ py_hash name = Ok k.
Proof.
  intros H. rewrite indexed_lookup in H.
  apply first_writer_split in H
    as (pre & [token outcome] & post & -> & Hc & Hk & _).
  destruct (reached_record _ _ Hk)
    as (c' & names & name & E & Ht & Hx & Hn & Hh).
  simpl in E, Hc. subst outcome. simpl in Hc. subst c'.
  split; [assumption|]. exists token, names, name. repeat split; auto.
  apply elem_of_app. right. apply list_elem_of_here.
Qed.

Lemma indexed_sound_witness :
  truthy cask_b = true
  /\ exists token names name,
       (token, Ok cask_b) ∈ [("a", Ok cask_a); ("b", Ok cask_b)]
       /\ extract_app_names_from_cask cask_b = Ok names
       /\ name ∈ names
       /\ py_hash name = Ok (KStr "Foo.app").
Proof.
  apply (indexed_sound [("a", Ok cask_a); ("b", Ok cask_b)] (KStr "Foo.app")).
  rewrite indexed_lookup. reflexivity.
Defined.

Lemma first_writer_none (k : key) (tasks : list (string * result pyval)) :
  first_writer k tasks = None <-> forall t, t ∈ tasks -> k ∉ reached t.2.
Proof.
  induction tasks as [|task rest IH]; simpl.
  - split; [|reflexivity]. intros _ t Ht. apply elem_of_nil in Ht. destruct Ht.
  - destruct (bool_decide (k ∈ reached task.2)) eqn:E.
    + apply bool_decide_eq_true in E. split; [discriminate|].
      intros H. destruct (H task (list_elem_of_here _ _) E).
    + apply bool_decide_eq_false in E. rewrite IH. split.
      * intros H t Ht. apply elem_of_cons in Ht as [->|Ht]; auto.
      * intros H t Ht. apply H. apply list_elem_of_further. assumption.
Qed.

Lemma first_writer_app (k : key) (tasks more : list (string * result pyval)) :
  first_writer k (tasks ++ more) =
    match first_writer k tasks with
    | Some c => Some c
    | None => first_writer k more
    end.
Proof.
  induction tasks as [|task rest IH]; simpl; [reflexivity|].
  destruct (bool_decide (k ∈ reached task.2)); [reflexivity | exact IH].
Qed.

(** The writers of a key agree when all the tasks that reach the key
    fetched the same record. *)
Lemma first_writer_any (k : key) (tasks : list (string * result pyval))
  (t : string * result pyval) :
  (forall t1 t2, t1 ∈ tasks -> t2 ∈ tasks ->
     k ∈ reached t1.2 -> k ∈ reached t2.2 -> t1.2 = t2.2) ->
  t ∈ tasks -> k ∈ reached t.2 ->
  first_writer k tasks = Some (record_of t.2).
Proof.
  intros Hsame Ht Hk.
  destruct (first_writer k tasks) as [c|] eqn:E.
  - apply first_writer_split in E
      as (pre & t0 & post & -> & <- & Hk0 & _).
    rewrite (Hsame t0 t); auto.
    apply elem_of_app. right. apply list_elem_of_here.
  - destruct (proj1 (first_writer_none k tasks) E t Ht Hk).
Qed.

(** X11.  The index does not depend on the order in which the tasks
    complete when the tasks that reach the same key fetched the same
    record (so, when no two casks share an app name): two orders of the
    same tasks give the same index. *)
Theorem indexed_order_independent
  (tasks tasks' : list (string * result pyval)) :
  tasks ≡ₚ tasks' ->
  (forall t1 t2 k, t1 ∈ tasks -> t2 ∈ tasks ->
     k ∈ reached t1.2 -> k ∈ reached t2.2 -> t1.2 = t2.2) ->
  indexed tasks = indexed tasks'.
Proof.
  intros Hperm Hsame. apply map_eq. intros k. rewrite !indexed_lookup.
  destruct (first_writer k tasks) as [c|] eqn:E.
  - apply first_writer_split in E
      as (pre & t & post & Htasks & <- & Hk & _).
    assert (t ∈ tasks) as Ht
      by (rewrite Htasks; apply elem_of_app; right; apply list_elem_of_here).
    symmetry. apply first_writer_any; auto.
    + intros t1 t2 H1 H2. apply Hsame; rewrite Hperm; assumption.
    + rewrite <- Hperm. assumption.
  - symmetry. apply first_writer_none. intros t Ht.
    apply (proj1 (first_writer_none k tasks) E). rewrite Hperm. assumption.
Qed.

Lemma indexed_order_independent_witness :
  indexed [("a", Ok cask_a); ("x", Raise TimeoutExpired); ("b", Ok PNone)]
  = indexed [("b", Ok PNone); ("a", Ok cask_a); ("x", Raise TimeoutExpired)].
Proof.
  apply indexed_order_independent.
  - symmetry.
    apply (Permutation_cons_append
             [("a", Ok cask_a); ("x", Raise TimeoutExpired)] ("b", Ok PNone)).
  - intros t1 t2 k H1 H2 Hk1 Hk2.
    assert (forall t, t ∈ [("a", Ok cask_a); ("x", Raise TimeoutExpired);
                           ("b", Ok PNone)] ->
                      k ∈ reached t.2 -> t.2 = Ok cask_a) as Hone.
    { intros t Ht Hk. repeat (apply elem_of_cons in Ht as [->|Ht]);
        [reflexivity | | | ];
        try (apply elem_of_nil in Hk; destruct Hk).
      apply elem_of_nil in Ht. destruct Ht. }
    rewrite (Hone t1), (Hone t2); auto.
Defined.

(** X12.  The loop never replaces an entry: the index of a list of
    tasks is kept whole in the index of these tasks followed by more
    tasks. *)
Theorem indexed_stable (tasks more : list (string * result pyval)) :
  indexed tasks ⊆ indexed (tasks ++ more).
Proof.
  apply map_subseteq_spec. intros k c H.
  rewrite indexed_lookup in H. rewrite indexed_lookup, first_writer_app, H.
  reflexivity.
Qed.

(** ** The lines of the loop *)

Lemma add_app_names_result (c : pyval) (names : list pyval)
  (st : index_state) :
  (add_app_names c names st).2 =
    if forallb hashable names then Ok tt else Raise TypeError.
Proof.
  revert st. induction names as [|name rest IH]; intros st; simpl;
    [reflexivity|].
  unfold hashable at 1.
  destruct name; simpl; try apply IH; reflexivity.
Qed.

Lemma process_future_result (outcome : result pyval) (st : index_state) :
  (process_future outcome st).2 =
    match task_fault outcome with
    | Some e => Raise e
    | None => Ok tt
    end.
Proof.
  unfold process_future, task_fault. destruct outcome as [c|e]; simpl;
    [|reflexivity].
  destruct (truthy c); simpl; [|reflexivity].
  destruct (extract_app_names_from_cask c) as [names|e]; simpl;
    [|reflexivity].
  rewrite add_app_names_result. destruct (forallb hashable names); reflexivity.
Qed.

Lemma reported_faults_app (out1 out2 : list event) :
  reported_faults (out1 ++ out2)
  = (reported_faults out1 ++ reported_faults out2)%list.
Proof. apply omap_app. Qed.

Lemma reported_progress_app (out1 out2 : list event) :
  reported_progress (out1 ++ out2)
  = (reported_progress out1 ++ reported_progress out2)%list.
Proof. apply omap_app. Qed.

Lemma index_step_out (total i : nat) (task : string * result pyval)
  (st : index_state) (out : list event) :
  (index_step total i task (st, out)).2 =
    (out
     ++ match task_fault task.2 with
        | Some e => [Stderr (ErrorProcessingCask task.1 e)]
        | None => []
        end
     ++ (if (i mod 500 =? 0)%nat then [Stderr (ProcessedCasks i total)]
         else []))%list.
Proof.
  unfold index_step. destruct task as [token outcome].
  pose proof (process_future_result outcome st) as H.
  destruct (process_future outcome st) as [st' r]. simpl in H. subst r.
  cbn [fst snd]. destruct (task_fault outcome); reflexivity.
Qed.

(** X13.  The loop of the indexer reports on the diagnostic stream each
    task whose handling raised, once, with its token and the exception,
    in the order of completion; it reports no other task.  The handling
    raises when the fetch raised, when the extraction of the names
    raised, and when a name cannot be hashed. *)
Theorem index_loop_reports_faults (total i : nat)
  (tasks : list (string * result pyval)) (acc : index_state * list event) :
  reported_faults (index_loop total i tasks acc).2
  = (reported_faults acc.2
     ++ omap (fun task => (fun e => (task.1, e)) <$> task_fault task.2)
          tasks)%list.
Proof.
  revert i acc. induction tasks as [|task rest IH]; intros i [st out].
  - simpl. rewrite app_nil_r. reflexivity.
  - cbn [index_loop]. rewrite IH.
    rewrite (surjective_pairing (index_step total i task (st, out))).
    cbn [snd]. rewrite index_step_out, !reported_faults_app.
    rewrite <- app_assoc. f_equal.
    destruct (task_fault task.2) eqn:Ef, (i mod 500 =? 0)%nat;
      cbn; rewrite Ef; reflexivity.
Qed.

(** X14.  The loop prints a line of progress after each 500th task and
    after no other: counting the tasks from [i], the lines show the
    multiples of 500 among the numbers of the tasks, in order, each
    with the total. *)
Theorem index_loop_reports_progress (total i : nat)
  (tasks : list (string * result pyval)) (acc : index_state * list event) :
  reported_progress (index_loop total i tasks acc).2
  = (reported_progress acc.2
     ++ map (fun j => (j, total))
          (List.filter (fun j => (j mod 500 =? 0)%nat)
             (seq i (length tasks))))%list.
Proof.
  revert i acc. induction tasks as [|task rest IH]; intros i [st out].
  - simpl. rewrite app_nil_r. reflexivity.
  - cbn [index_loop]. rewrite IH.
    rewrite (surjective_pairing (index_step total i task (st, out))).
    cbn [snd length seq List.filter].
    rewrite index_step_out, !reported_progress_app.
    rewrite <- app_assoc. f_equal.
    destruct (task_fault task.2), (i mod 500 =? 0)%nat; reflexivity.
Qed.

(** ** The matcher *)

Lemma match_loop_acc (cask_db : gmap key pyval) (apps results : list pyval) :
  match_loop cask_db apps results =
    let* records := match_loop cask_db apps [] in
    Ok (results ++ records)%list.
Proof.
  revert results. induction apps as [|app rest IH]; intros results; simpl.
  - rewrite app_nil_r. reflexivity.
  - destruct (match_app cask_db app) as [[record|]|e]; simpl;
      [|apply IH | reflexivity].
    rewrite (IH (results ++ [record])%list), (IH [record]).
    destruct (match_loop cask_db rest []) as [records|e]; simpl;
      [|reflexivity].
    rewrite <- app_assoc. reflexivity.
Qed.

Lemma match_loop_app (cask_db : gmap key pyval) (apps1 apps2 : list pyval) :
  match_loop cask_db (apps1 ++ apps2) [] =
    let* records1 := match_loop cask_db apps1 [] in
    let* records2 := match_loop cask_db apps2 [] in
    Ok (records1 ++ records2)%list.
Proof.
  induction apps1 as [|app rest IH]; simpl.
  - destruct (match_loop cask_db apps2 []); reflexivity.
  - destruct (match_app cask_db app) as [[record|]|e]; simpl;
      [|exact IH | reflexivity].
    rewrite (match_loop_acc cask_db (rest ++ apps2) [record]), IH.
    rewrite (match_loop_acc cask_db rest [record]).
    destruct (match_loop cask_db rest []) as [records1|e]; simpl;
      [|reflexivity].
    destruct (match_loop cask_db apps2 []) as [records2|e]; reflexivity.
Qed.

(** X15.  The matcher handles the apps one after the other and each on
    its own: for a list of apps in two pieces, it returns the records of
    the first piece followed by the records of the second, and it raises
    what the first piece raises, or else what the second raises. *)
Theorem match_apps_to_casks_app (cask_db : gmap key pyval)
  (apps1 apps2 : list pyval) :
  match_apps_to_casks (PList (apps1 ++ apps2)) cask_db =
    let* records1 := match_apps_to_casks (PList apps1) cask_db in
    let* records2 := match_apps_to_casks (PList apps2) cask_db in
    Ok (records1 ++ records2)%list.
Proof. apply match_loop_app. Qed.

Lemma compare_versions_flag (installed available r : pyval) :
  compare_versions installed available = Ok r ->
  r = PNone \/ exists b, r = PBool b.
Proof.
  unfold compare_versions.
  destruct (negb (truthy installed) || negb (truthy available)).
  - intros [= <-]. left. reflexivity.
  - destruct (clean_version installed) as [ci|e]; simpl; [|discriminate].
    destruct (clean_version available) as [ca|e]; simpl; [|discriminate].
    unfold compare_cleaned.
    destruct (parse_version ci) as [v1|e]; simpl;
      [|intros [= <-]; left; reflexivity].
    destruct (parse_version ca) as [v2|e]; simpl;
      [|intros [= <-]; left; reflexivity].
    destruct (list_lt _ _) as [b|e]; simpl; intros [= <-]; eauto.
Qed.

(** X16.  A record of the matcher is an object with the eight fields
    [app_name], [bundle_id], [installed_version], [cask_token],
    [cask_version], [update_available], [cask_installed], [outdated], in
    this order.  [app_name] is the name of the app, [update_available]
    is what the comparator returned for the two versions of the record
    ([None], [True] or [False]), and [cask_installed] is a boolean. *)
Theorem match_app_record_shape (cask_db : gmap key pyval)
  (app record : pyval) :
  match_app cask_db app = Ok (Some record) ->
  exists app_name bundle_id installed_version cask_token cask_version
         update_available cask_installed outdated,
    record = PDict [("app_name", app_name);
                    ("bundle_id", bundle_id);
                    ("installed_version", installed_version);
                    ("cask_token", cask_token);
                    ("cask_version", cask_version);
                    ("update_available", update_available);
                    ("cask_installed", PBool cask_installed);
                    ("outdated", outdated)]
    /\ py_item app "name" = Ok app_name
    /\ compare_versions installed_version cask_version = Ok update_available
    /\ (update_available = PNone \/ exists b, update_available = PBool b).
Proof.
  unfold match_app.
  destruct (py_item app "name") as [app_name|e]; cbn [bind]; [|discriminate].
  destruct (db_get cask_db app_name) as [cask_data|e]; cbn [bind];
    [|discriminate].
  destruct (negb (truthy cask_data)); [discriminate|].
  destruct (py_get app "bundle_short_version" (PStr "")) as [iv|e];
    cbn [bind]; [|discriminate].
  destruct (py_get cask_data "version" (PStr "")) as [av|e];
    cbn [bind]; [|discriminate].
  destruct (compare_versions iv av) as [u|e] eqn:Ec;
    cbn [bind]; [|discriminate].
  destruct (py_get app "bundle_identifier" (PStr "")) as [bid|e];
    cbn [bind]; [|discriminate].
  destruct (py_get cask_data "token" (PStr "")) as [tok|e];
    cbn [bind]; [|discriminate].
  destruct (py_get cask_data "installed" PNone) as [ins|e];
    cbn [bind]; [|discriminate].
  destruct (py_get cask_data "outdated" (PBool false)) as [od|e];
    cbn [bind]; [|discriminate].
  intros [= <-]. exists app_name, bid, iv, tok, av, u, (truthy ins), od.
  split; [reflexivity|]. split; [reflexivity|]. split; [exact Ec|].
  apply (compare_versions_flag iv av u Ec).
Qed.

Lemma match_app_record_shape_witness :
  exists app_name bundle_id installed_version cask_token cask_version
         update_available cask_installed outdated,
    PDict [("app_name", PStr "Foo.app");
           ("bundle_id", PStr "com.example.foo");
           ("installed_version", PStr "0.9");
           ("cask_token", PStr "foo"); ("cask_version", PStr "1.0");
           ("update_available", PBool true);
           ("cask_installed", PBool false); ("outdated", PBool false)]
    = PDict [("app_name", app_name);
             ("bundle_id", bundle_id);
             ("installed_version", installed_version);
             ("cask_token", cask_token);
             ("cask_version", cask_version);
             ("update_available", update_available);
             ("cask_installed", PBool cask_installed);
             ("outdated", outdated)]
    /\ py_item (PDict [("name", PStr "Foo.app");
                       ("path", PStr "/Applications/Foo.app");
                       ("bundle_identifier", PStr "com.example.foo");
                       ("bundle_short_version", PStr "0.9")]) "name"
       = Ok app_name
    /\ compare_versions installed_version cask_version = Ok update_available
    /\ (update_available = PNone \/ exists b, update_available = PBool b).
Proof.
  apply (match_app_record_shape {[KStr "Foo.app" := foo_cask]}).
  reflexivity.
Defined.

Lemma match_loop_cons_raise (cask_db : gmap key pyval) (app : pyval)
  (rest : list pyval) (e : exn) :
  match_loop cask_db (app :: rest) [] = Raise e <->
  match_app cask_db app = Raise e
  \/ (exists r, match_app cask_db app = Ok r)
     /\ match_loop cask_db rest [] = Raise e.
Proof.
  simpl. destruct (match_app cask_db app) as [[record|]|e'] eqn:Ea; simpl.
  - rewrite (match_loop_acc cask_db rest [record]).
    destruct (match_loop cask_db rest []) as [records|e'']; simpl.
    + split; [discriminate|]. intros [H|[_ H]]; discriminate.
    + split; [intros [= ->]; right; eauto|].
      intros [H|[_ H]]; [discriminate | exact H].
  - split; [intros H; right; eauto|].
    intros [H|[_ H]]; [discriminate | exact H].
  - split; [intros [= ->]; left; reflexivity|].
    intros [[= ->]|[[r Hr] _]]; [reflexivity | discriminate].
Qed.

(** How the loop of the matcher ends, from how the handling of each app
    ends. *)
Lemma match_loop_raise (cask_db : gmap key pyval) (apps : list pyval)
  (e : exn) :
  match_loop cask_db apps [] = Raise e <->
  exists pre app post,
    apps = (pre ++ app :: post)%list
    /\ (forall a, a ∈ pre -> exists r, match_app cask_db a = Ok r)
    /\ match_app cask_db app = Raise e.
Proof.
  induction apps as [|app rest IH].
  - simpl. split; [discriminate|]. intros (pre & a & post & H & _).
    destruct pre; discriminate.
  - rewrite match_loop_cons_raise, IH. split.
    + intros [H|[Hr (pre & a & post & -> & Hpre & Hraise)]].
      * exists [], app, rest. repeat split; auto.
        intros a Ha. apply elem_of_nil in Ha. destruct Ha.
      * exists (app :: pre), a, post. repeat split; auto.
        intros a' Ha'. apply elem_of_cons in Ha' as [->|Ha']; auto.
    + intros (pre & a & post & H & Hpre & Hraise).
      destruct pre as [|p pre]; simpl in H.
      * injection H as -> ->. left. assumption.
      * injection H as -> ->. right.
        split; [apply Hpre, list_elem_of_here|].
        exists pre, a, post. repeat split; auto.
        intros a' Ha'. apply Hpre. apply list_elem_of_further. assumption.
Qed.

(** X17.  The matcher gives all the records or none: it raises exactly
    when the handling of some app raises, with the exception of the
    first such app, and the records of the apps before it are lost.  The
    handling of an app raises [KeyError] when the app has no ['name']. *)
Theorem match_apps_to_casks_raises (cask_db : gmap key pyval)
  (apps : list pyval) (e : exn) :
  (match_apps_to_casks (PList apps) cask_db = Raise e <->
   exists pre app post,
     apps = (pre ++ app :: post)%list
     /\ (forall a, a ∈ pre -> exists r, match_app cask_db a = Ok r)
     /\ match_app cask_db app = Raise e)
  /\ (forall fields,
        dict_lookup "name" fields = None ->
        match_app cask_db (PDict fields) = Raise KeyError).
Proof.
  split; [apply match_loop_raise|].
  intros fields H. unfold match_app. simpl. rewrite H. reflexivity.
Qed.

Lemma match_apps_to_casks_raises_witness :
  match_apps_to_casks
    (PList [PDict [("name", PStr "Foo.app");
                   ("bundle_short_version", PStr "0.9")];
            PDict [("path", PStr "/Applications/Bar.app")]])
    {[KStr "Foo.app" := foo_cask]}
  = Raise KeyError.
Proof.
  destruct (match_apps_to_casks_raises {[KStr "Foo.app" := foo_cask]}
              [PDict [("name", PStr "Foo.app");
                      ("bundle_short_version", PStr "0.9")];
               PDict [("path", PStr "/Applications/Bar.app")]] KeyError)
    as [[_ H] Hkey].
  apply H.
  exists [PDict [("name", PStr "Foo.app");
                 ("bundle_short_version", PStr "0.9")]],
    (PDict [("path", PStr "/Applications/Bar.app")]), [].
  split; [reflexivity|]. split.
  - intros a Ha. apply list_elem_of_singleton in Ha as ->.
    eexists. reflexivity.
  - apply Hkey. reflexivity.
Defined.

(** ** The inventory *)

Lemma get_installed_apps_result (w : world) :
  (get_installed_apps w).2 =
    match osquery w with
    | Raise e => if handled_by_inventory e then Ok (PList []) else Raise e
    | Ok r =>
        if returncode r =? 0 then
          match json_loads w (stdout r) with
          | Ok apps => Ok apps
          | Raise e =>
              if handled_by_inventory e then Ok (PList []) else Raise e
          end
        else Ok (PList [])
    end.
Proof.
  unfold get_installed_apps. destruct (osquery w) as [r|e]; simpl.
  - destruct (returncode r =? 0); simpl; [|reflexivity].
    destruct (json_loads w (stdout r)) as [apps|e]; simpl; [reflexivity|].
    destruct e; reflexivity.
  - destruct e; reflexivity.
Qed.

(** X18.  [get_installed_apps] raises exactly when the command or the
    decoder raises an exception other than [TimeoutExpired],
    [JSONDecodeError] and [FileNotFoundError], and then it raises this
    exception.  For one of these three, and for a status other than 0,
    it returns the empty list; else it returns what the decoder
    returned. *)
Theorem get_installed_apps_raises (w : world) :
  (forall e,
     (get_installed_apps w).2 = Raise e <->
     handled_by_inventory e = false
     /\ (osquery w = Raise e
         \/ exists r, osquery w = Ok r /\ returncode r = 0
                      /\ json_loads w (stdout r) = Raise e))
  /\ ((exists e, handled_by_inventory e = true
                 /\ (osquery w = Raise e
                     \/ exists r, osquery w = Ok r /\ returncode r = 0
                                  /\ json_loads w (stdout r) = Raise e))
      \/ (exists r, osquery w = Ok r /\ returncode r <> 0) ->
      (get_installed_apps w).2 = Ok (PList []))
  /\ (forall r apps,
        osquery w = Ok r -> returncode r = 0 ->
        json_loads w (stdout r) = Ok apps ->
        (get_installed_apps w).2 = Ok apps).
Proof.
  rewrite get_installed_apps_result. split; [|split].
  - intros e. destruct (osquery w) as [r|e0].
    + destruct (Z.eqb_spec (returncode r) 0) as [Hrc|Hrc].
      * destruct (json_loads w (stdout r)) as [apps|e1] eqn:Ed.
        -- split; [discriminate|].
           intros (_ & [H|(r' & [= <-] & _ & H)]); congruence.
        -- destruct (handled_by_inventory e1) eqn:Eh.
           ++ split; [discriminate|].
              intros (Hh & [H|(r' & [= <-] & _ & H)]); congruence.
           ++ split.
              ** intros [= <-]. split; [assumption|]. right. eauto.
              ** intros (_ & [H|(r' & [= <-] & _ & H)]); congruence.
      * split; [discriminate|].
        intros (_ & [H|(r' & [= <-] & Hrc' & _)]); congruence.
    + destruct (handled_by_inventory e0) eqn:Eh.
      * split; [discriminate|].
        intros (Hh & [[= <-]|(r' & H & _)]); congruence.
      * split.
        -- intros [= <-]. auto.
        -- intros (_ & [[= <-]|(r' & H & _)]); [reflexivity | discriminate].
  - intros [(e & Hh & [->|(r & -> & Hrc & Hd)])|(r & -> & Hrc)].
    + rewrite Hh. reflexivity.
    + apply Z.eqb_eq in Hrc. rewrite Hrc, Hd, Hh. reflexivity.
    + apply Z.eqb_neq in Hrc. rewrite Hrc. reflexivity.
  - intros r apps -> Hrc Hd. apply Z.eqb_eq in Hrc.
    rewrite Hrc, Hd. reflexivity.
Qed.

Lemma get_installed_apps_raises_witness :
  (get_installed_apps (foo_world "0.9")).2 = Ok (foo_apps "0.9").
Proof.
  destruct (get_installed_apps_raises (foo_world "0.9")) as (_ & _ & H).
  apply (H (Completed 0 (foo_apps_text "0.9") "")); reflexivity.
Defined.

(** ** The program *)

(** How [main] ends and what it writes to the standard output, once the
    index is built and is not empty. *)
Lemma main_after_index (w : world) (cask_db : gmap key pyval) :
  (build_cask_database w).2 = Ok cask_db -> db_truthy cask_db = true ->
  (main w).2 =
    match (get_installed_apps w).2 with
    | Raise e => Raise e
    | Ok apps =>
        if truthy apps then
          match py_len apps with
          | Raise e => Raise e
          | Ok _ =>
              match match_apps_to_casks apps cask_db with
              | Raise e => Raise e
              | Ok _ => Ok 0
              end
          end
        else Ok 1
    end
  /\ printed_out (main w).1 =
       match (get_installed_apps w).2 with
       | Raise _ => []
       | Ok apps =>
           if truthy apps then
             match py_len apps with
             | Raise _ => []
             | Ok _ =>
                 match match_apps_to_casks apps cask_db with
                 | Raise _ => []
                 | Ok records => [PList records]
                 end
             end
           else []
       end.
Proof.
  intros Hb Hdb. unfold main.
  rewrite io_bind_result, io_bind_printed, Hb, Hdb.
  rewrite build_cask_database_quiet.
  io_steps @io_bind_result @io_bind_printed.
  rewrite get_installed_apps_quiet.
  destruct (get_installed_apps w).2 as [apps|e]; [|split; reflexivity].
  destruct (truthy apps); cbn [negb]; [|split; reflexivity].
  io_steps @io_bind_result @io_bind_printed.
  destruct (py_len apps) as [n|e]; [|split; reflexivity].
  io_steps @io_bind_result @io_bind_printed.
  destruct (match_apps_to_casks apps cask_db) as [records|e];
    [|split; reflexivity].
  io_steps @io_bind_result @io_bind_printed.
  destruct (length (List.filter update_flag records) =? 0)%nat;
    split; reflexivity.
Qed.


(** X20.  When the matcher returns for the rows of the inventory, the
    status is 0 exactly when the index is not empty and the inventory
    is not empty; then the records of the matcher are what the standard
    output receives.  In the other case the status is 1 and the
    standard output receives nothing. *)
Theorem run_status_without_fault (w : world) (cask_db : gmap key pyval)
  (rows records : list pyval) :
  (build_cask_database w).2 = Ok cask_db ->
  (get_installed_apps w).2 = Ok (PList rows) ->
  match_apps_to_casks (PList rows) cask_db = Ok records ->
  ((run w).2 = 0 <-> db_truthy cask_db = true /\ rows <> [])
  /\ ((run w).2 = 0 -> printed_out (run w).1 = [PList records])
  /\ ((run w).2 <> 0 -> (run w).2 = 1 /\ printed_out (run w).1 = []).
Proof.
  intros Hb Ha Hm. destruct (db_truthy cask_db) eqn:Hdb.
  - rewrite run_main. cbn [fst snd].
    destruct (main_after_index w cask_db Hb Hdb) as [-> ->].
    rewrite Ha. destruct rows as [|row rows].
    + cbn. split; [|split].
      * split; [discriminate|]. intros [_ H]. destruct H. reflexivity.
      * discriminate.
      * auto.
    + cbn [truthy py_len]. rewrite Hm. cbn. split; [|split].
      * split; [|reflexivity]. intros _. split; [reflexivity | discriminate].
      * reflexivity.
      * intros H. destruct H. reflexivity.
  - destruct (run_empty_index w cask_db Hb Hdb) as [-> ->].
    split; [|split].
    + split; [discriminate|]. intros [H _]. discriminate.
    + discriminate.
    + auto.
Qed.

Lemma run_status_without_fault_witness :
  (run (foo_world "0.9")).2 = 0
  <-> db_truthy {[KStr "Foo.app" := foo_cask]} = true
      /\ [PDict [("name", PStr "Foo.app");
                 ("path", PStr "/Applications/Foo.app");
                 ("bundle_identifier", PStr "com.example.foo");
                 ("bundle_short_version", PStr "0.9")]] <> [].
Proof.
  eapply (run_status_without_fault (foo_world "0.9")); reflexivity.
Defined.

Lemma match_app_entry (cask_db : gmap key pyval) (app record : pyval) :
  match_app cask_db app = Ok (Some record) ->
  exists name k cask_data,
    py_item app "name" = Ok name
    /\ py_hash name = Ok k
    /\ cask_db !! k = Some cask_data
    /\ py_get record "cask_token" PNone = py_get cask_data "token" (PStr "")
    /\ py_get record "cask_version" PNone
       = py_get cask_data "version" (PStr "").
Proof.
  unfold match_app, db_get.
  destruct (py_item app "name") as [name|e] eqn:En; cbn [bind];
    [|discriminate].
  destruct (py_hash name) as [k|e] eqn:Eh; cbn [bind]; [|discriminate].
  destruct (cask_db !! k) as [c|] eqn:Ek; cbn [bind truthy negb];
    [|discriminate].
  destruct (negb (truthy c)); [discriminate|].
  destruct (py_get app "bundle_short_version" (PStr "")) as [iv|e];
    cbn [bind]; [|discriminate].
  destruct (py_get c "version" (PStr "")) as [av|e] eqn:Ev;
    cbn [bind]; [|discriminate].
  destruct (compare_versions iv av) as [u|e];
    cbn [bind]; [|discriminate].
  destruct (py_get app "bundle_identifier" (PStr "")) as [bid|e];
    cbn [bind]; [|discriminate].
  destruct (py_get c "token" (PStr "")) as [tok|e] eqn:Et;
    cbn [bind]; [|discriminate].
  destruct (py_get c "installed" PNone) as [ins|e];
    cbn [bind]; [|discriminate].
  destruct (py_get c "outdated" (PBool false)) as [od|e];
    cbn [bind]; [|discriminate].
  intros [= <-]. exists name, k, c.
  split; [reflexivity|]. split; [exact Eh|]. split; [exact Ek|].
  split; [rewrite Et | rewrite Ev]; reflexivity.
Qed.

(** X21.  A record the matcher gives with the index of the indexer is
    sound from end to end: the name of the installed app has the key of
    a name extracted from a record that one of the tasks fetched, and
    the token and the version the record shows are those of this
    fetched record. *)
Theorem report_sound (tasks : list (string * result pyval))
  (app record : pyval) :
  match_app (indexed tasks) app = Ok (Some record) ->
  exists name k token cask_data names declared,
    py_item app "name" = Ok name
    /\ py_hash name = Ok k
    /\ (token, Ok cask_data) ∈ tasks
    /\ extract_app_names_from_cask cask_data = Ok names
    /\ declared ∈ names
    /\ py_hash declared = Ok k
    /\ py_get record "cask_token" PNone
       = py_get cask_data "token" (PStr "")
    /\ py_get record "cask_version" PNone
       = py_get cask_data "version" (PStr "").
Proof.
  intros H.
  destruct (match_app_entry _ _ _ H) as (name & k & c & Hn & Hk & Hc & Ht & Hv).
  rewrite indexed_lookup in Hc.
  apply first_writer_split in Hc
    as (pre & [token outcome] & post & -> & Hrec & Hreach & _).
  destruct (reached_record _ _ Hreach)
    as (c' & names & declared & E & _ & Hx & Hd & Hh).
  simpl in E, Hrec. subst outcome. simpl in Hrec. subst c'.
  exists name, k, token, c, names, declared. repeat split; auto.
  apply elem_of_app. right. apply list_elem_of_here.
Qed.

Lemma report_sound_witness :
  exists name k token cask_data names declared,
    py_item (PDict [("name", PStr "Foo.app");
                    ("bundle_short_version", PStr "0.9")]) "name" = Ok name
    /\ py_hash name = Ok k
    /\ (token, Ok cask_data) ∈ [("a", Ok cask_a); ("b", Ok cask_b)]
    /\ extract_app_names_from_cask cask_data = Ok names
    /\ declared ∈ names
    /\ py_hash declared = Ok k
    /\ py_get
         (PDict [("app_name", PStr "Foo.app");
                 ("bundle_id", PStr "");
                 ("installed_version", PStr "0.9");
                 ("cask_token", PStr "b"); ("cask_version", PStr "1.0");
                 ("update_available", PBool true);
                 ("cask_installed", PBool false); ("outdated", PBool false)])
         "cask_token" PNone
       = py_get cask_data "token" (PStr "")
    /\ py_get
         (PDict [("app_name", PStr "Foo.app");
                 ("bundle_id", PStr "");
                 ("installed_version", PStr "0.9");
                 ("cask_token", PStr "b"); ("cask_version", PStr "1.0");
                 ("update_available", PBool true);
                 ("cask_installed", PBool false); ("outdated", PBool false)])
         "cask_version" PNone
       = py_get cask_data "version" (PStr "").
Proof.
  apply (report_sound [("a", Ok cask_a); ("b", Ok cask_b)]).
  reflexivity.
Defined.
